(** * obsidian-md2mp-unite: image upload cache, document rewriting and
      publishing, embedded in Rocq

    The development follows [src/wechat.ts] (upload cache, image rewriting,
    cover fallback, draft submission) and [src/renderer.ts]
    ([convertObsidianImages]).

    JavaScript strings are sequences of UTF-16 code units, modelled as
    [list N].  Effects (the process-wide cache, [Date.now], the network, the
    filesystem, [console.error]) are threaded through a small state and
    exception monad [Js]; everything outside the program (clock, network,
    filesystem, the [path] and [crypto] modules) is a field of [World].
    The clock answers by the number of earlier readings and the network by
    the number of earlier requests, so both may change freely over time;
    the filesystem is taken as fixed during a run.  [console.log] lines,
    the multipart boundary and the byte layout of a request body are not
    modelled: a request is recorded by its target, file name and payload. *)

From Stdlib Require Import ZArith NArith Lia List Ascii String.
From Stdlib Require Import DecimalString.
From stdpp Require Import base option list gmap.

Local Open Scope N_scope.

(* ================================================================== *)
(** ** JavaScript strings *)
(* ================================================================== *)

Module JsString.

(** A string is the list of its UTF-16 code units. *)
Abbreviation jsstring := (list N).

Definition cu (c : ascii) : N := N_of_ascii c.

(** UTF-8 decoding of a source literal into UTF-16 code units; literals
    in this file are UTF-8, as the literals of the TypeScript sources. *)
Definition cont (b : N) : N := N.land b 63.

Definition utf16_of_codepoint (cp : N) : jsstring :=
  if cp <? 65536 then [cp]
  else let v := cp - 65536 in
       [55296 + N.shiftr v 10; 56320 + N.land v 1023].

Fixpoint utf16_of_utf8 (bs : list N) : jsstring :=
  match bs with
  | [] => []
  | b :: t =>
    if b <? 128 then b :: utf16_of_utf8 t
    else if b <? 224 then
      match t with
      | c1 :: t1 =>
          utf16_of_codepoint (N.shiftl (N.land b 31) 6 + cont c1)
            ++ utf16_of_utf8 t1
      | _ => [65533]
      end
    else if b <? 240 then
      match t with
      | c1 :: c2 :: t2 =>
          utf16_of_codepoint
            (N.shiftl (N.land b 15) 12 + N.shiftl (cont c1) 6 + cont c2)
            ++ utf16_of_utf8 t2
      | _ => [65533]
      end
    else
      match t with
      | c1 :: c2 :: c3 :: t3 =>
          utf16_of_codepoint
            (N.shiftl (N.land b 7) 18 + N.shiftl (cont c1) 12
             + N.shiftl (cont c2) 6 + cont c3)
            ++ utf16_of_utf8 t3
      | _ => [65533]
      end
  end.

Definition js (s : string) : jsstring :=
  utf16_of_utf8 (map N_of_ascii (list_ascii_of_string s)).

(** The double quote and the single quote, as code units. *)
Definition dq : N := 34.
Definition sq : N := 39.
Definition dquoted (s : jsstring) : jsstring := dq :: s ++ [dq].

Definition isChar (c : ascii) (x : N) : bool := x =? cu c.

Definition isUpper (x : N) : bool := (65 <=? x) && (x <=? 90).
Definition isLower (x : N) : bool := (97 <=? x) && (x <=? 122).
Definition isDigit (x : N) : bool := (48 <=? x) && (x <=? 57).
Definition isAsciiLetter (x : N) : bool := isUpper x || isLower x.

(** Matching of one pattern letter under the [i] flag of a RegExp without
    the [u] flag: the input is compared after [toUpperCase], and a
    code unit outside ASCII never canonicalizes to an ASCII letter. *)
Definition ieq (c : ascii) (x : N) : bool :=
  let p := cu c in
  (x =? p) || (isLower p && (x =? p - 32)) || (isUpper p && (x =? p + 32)).

Definition isQuote (x : N) : bool := (x =? dq) || (x =? sq).

(** [span p s]: the longest prefix of [s] whose code units satisfy [p],
    and what follows it.  This is how a greedy class repetition such as
    [[^>]+] consumes input. *)
Fixpoint span (p : N -> bool) (s : jsstring) : jsstring * jsstring :=
  match s with
  | [] => ([], [])
  | c :: t => if p c then let '(a, b) := span p t in (c :: a, b)
              else ([], s)
  end.

(** [String.prototype.startsWith]. *)
Fixpoint startsWith (s prefix : jsstring) : bool :=
  match prefix, s with
  | [], _ => true
  | p :: ps, c :: cs => (c =? p) && startsWith cs ps
  | _ :: _, [] => false
  end.

(** A JavaScript value used as a condition: [undefined] and the empty
    string are falsy. *)
Definition truthy (s : option jsstring) : bool :=
  match s with
  | Some (_ :: _) => true
  | _ => false
  end.

(** String conversion inside a template literal or a [+] concatenation. *)
Definition toStr (s : option jsstring) : jsstring :=
  match s with
  | Some x => x
  | None => js "undefined"
  end.

(** Decimal rendering of an integral JavaScript number (of a magnitude
    printed without exponent, as the platform's error codes are). *)
Definition numToStr (z : Z) : jsstring :=
  js (NilZero.string_of_int (Z.to_int z)).

(** [s.split(/[/\\]/).pop()]: what follows the last slash or backslash. *)
Definition isSep (x : N) : bool := isChar "/" x || isChar "\" x.

Fixpoint lastSegment_aux (cur : jsstring) (s : jsstring) : jsstring :=
  match s with
  | [] => rev cur
  | c :: t => if isSep c then lastSegment_aux [] t
              else lastSegment_aux (c :: cur) t
  end.

Definition lastSegment (s : jsstring) : jsstring := lastSegment_aux [] s.

(** [e1 || e2] on strings. *)
Definition orElse (s d : jsstring) : jsstring :=
  match s with [] => d | _ => s end.

(** *** The regular expressions of the sources

    Each pattern of the sources is a fixed prefix, one greedy repetition of
    a negated class and a fixed suffix, so a match attempt at a position is
    decided by [span]: the repetition takes every code unit up to the first
    excluded one, and giving some back can never help.  A global scan tries
    the positions from left to right and resumes after a match; the scans
    below are structural in the text and carry the number of code units of
    the current match that are still to be passed over. *)

(** [/<img([^>]+)>/gi] tried at the head of [s]: the capture [match[1]]. *)
Definition match_imgRegex (s : jsstring) : option jsstring :=
  match s with
  | c1 :: c2 :: c3 :: c4 :: t =>
      if isChar "<" c1 && ieq "i" c2 && ieq "m" c3 && ieq "g" c4 then
        match span (fun c => negb (isChar ">" c)) t with
        | ((_ :: _) as attrs, _ :: _) => Some attrs
        | _ => None
        end
      else None
  | _ => None
  end.

(** The captures of the successive [imgRegex.exec(htmlContent)] calls. *)
Fixpoint imgRegex_exec (skip : nat) (s : jsstring) : list jsstring :=
  match s with
  | [] => []
  | _ :: t =>
      match skip with
      | S k => imgRegex_exec k t
      | O =>
          match match_imgRegex s with
          | Some attrs => attrs :: imgRegex_exec (4 + length attrs) t
          | None => imgRegex_exec 0 t
          end
      end
  end.

(** The src pattern of the sources, written [/src=Q([^Q]+)Q/i] here with Q
    for the class of the double and the single quote, tried at the head of
    [s]: the capture. *)
Definition match_srcAttr (s : jsstring) : option jsstring :=
  match s with
  | c1 :: c2 :: c3 :: c4 :: q :: t =>
      if ieq "s" c1 && ieq "r" c2 && ieq "c" c3 && isChar "=" c4 && isQuote q
      then
        match span (fun c => negb (isQuote c)) t with
        | ((_ :: _) as v, _ :: _) => Some v
        | _ => None
        end
      else None
  | _ => None
  end.

(** [attrs.match(/src=Q([^Q]+)Q/i)]: the capture of the leftmost match, if
    any. *)
Fixpoint srcMatch (attrs : jsstring) : option jsstring :=
  match attrs with
  | [] => None
  | _ :: t =>
      match match_srcAttr attrs with
      | Some v => Some v
      | None => srcMatch t
      end
  end.

Definition backslash : N := 92.

(** The class [[.*+?^${}()|[\]\\]] of the escaping replace. *)
Definition isRegExpSpecial (x : N) : bool :=
  isChar "." x || isChar "*" x || isChar "+" x || isChar "?" x
  || isChar "^" x || isChar "$" x || isChar "{" x || isChar "}" x
  || isChar "(" x || isChar ")" x || isChar "|" x || isChar "[" x
  || isChar "]" x || (x =? backslash).

(** [src.replace(/[.*+?^${}()|[\]\\]/g, '\\$&')]: a backslash before each
    special character. *)
Definition escapeRegExp (src : jsstring) : jsstring :=
  flat_map (fun c => if isRegExpSpecial c then [backslash; c] else [c]) src.

(** The pattern text handed to [new RegExp]: [src=], the class of the two
    quotes, [escapedSrc], the class of the two quotes. *)
Definition srcRegex_source (src : jsstring) : jsstring :=
  js "src=[" ++ [dq; sq] ++ js "]" ++ escapeRegExp src
     ++ js "[" ++ [dq; sq] ++ js "]".

(** The part of the pattern language these pattern texts use: a literal
    code unit, possibly written with a backslash, and a class listing its
    members.  Any other syntax is not read ([None]). *)
Inductive Atom :=
| Lit (c : N)
| OneOf (members : jsstring).

Fixpoint parsePattern (cls : option jsstring) (escaped : bool)
    (p : jsstring) : option (list Atom) :=
  match p with
  | [] => match cls, escaped with
          | None, false => Some []
          | _, _ => None
          end
  | c :: t =>
      match cls with
      | Some members =>
          if isChar "]" c then
            option_map (cons (OneOf (rev members))) (parsePattern None false t)
          else if (c =? backslash) || isChar "^" c || isChar "-" c then None
          else parsePattern (Some (c :: members)) false t
      | None =>
          if escaped then
            if isRegExpSpecial c
            then option_map (cons (Lit c)) (parsePattern None false t)
            else None
          else if c =? backslash then parsePattern None true t
          else if isChar "[" c then parsePattern (Some []) false t
          else if isRegExpSpecial c then None
          else option_map (cons (Lit c)) (parsePattern None false t)
      end
  end.

(** A match attempt at the head of [s]: the matched text. *)
Fixpoint matchAtoms (atoms : list Atom) (s : jsstring) : option jsstring :=
  match atoms with
  | [] => Some []
  | a :: rest =>
      match s with
      | [] => None
      | c :: t =>
          let ok := match a with
                    | Lit x => c =? x
                    | OneOf members => existsb (N.eqb c) members
                    end in
          if ok then option_map (cons c) (matchAtoms rest t) else None
      end
  end.

(** The replacement text of [String.prototype.replace] for a pattern
    without capture groups: [$$], [$&], [$`] and [$'] are substituted, any
    other [$] stands for itself. *)
Fixpoint expandReplacement (tpl matched before after : jsstring) : jsstring :=
  match tpl with
  | [] => []
  | c :: t =>
      if isChar "$" c then
        match t with
        | d :: t' =>
            if isChar "$" d then c :: expandReplacement t' matched before after
            else if isChar "&" d
              then matched ++ expandReplacement t' matched before after
            else if isChar "`" d
              then before ++ expandReplacement t' matched before after
            else if isChar "'" d
              then after ++ expandReplacement t' matched before after
            else c :: expandReplacement t matched before after
        | [] => [c]
        end
      else c :: expandReplacement t matched before after
  end.

(** [s.replace(re, tpl)] for a global [re] that matches no empty text:
    [before] is the text already passed, reversed. *)
Fixpoint replaceGlobal (atoms : list Atom) (tpl : jsstring)
    (before : jsstring) (skip : nat) (s : jsstring) : jsstring :=
  match s with
  | [] => []
  | c :: t =>
      match skip with
      | S k => replaceGlobal atoms tpl (c :: before) k t
      | O =>
          match matchAtoms atoms s with
          | Some ((_ :: m') as m) =>
              expandReplacement tpl m (rev before) (drop (length m) s)
                ++ replaceGlobal atoms tpl (c :: before) (length m') t
          | _ => c :: replaceGlobal atoms tpl (c :: before) 0 t
          end
      end
  end.

(** [s.replace(/\//g, '\\')] *)
Definition slashesToBackslashes (s : jsstring) : jsstring :=
  map (fun c => if isChar "/" c then backslash else c) s.

(** [src.match(/^[a-zA-Z]:\//)] *)
Definition isDrivePath (src : jsstring) : bool :=
  match src with
  | c1 :: c2 :: c3 :: _ => isAsciiLetter c1 && isChar ":" c2 && isChar "/" c3
  | _ => false
  end.

(** The atoms [new RegExp] reads from [srcRegex_source src]: the text
    [src=], a quote, [src] itself, a quote. *)
Definition srcAtoms (src : jsstring) : list Atom :=
  map Lit (js "src=") ++ OneOf [dq; sq] :: map Lit src ++ [OneOf [dq; sq]].

(** *** Describing a rewrite *)





End JsString.
Import JsString.

(* ================================================================== *)
(** ** Exceptions, the world and the state *)
(* ================================================================== *)

(** An exception value: the constructor name and the message.  Every
    [throw] and [reject] of the sources builds [new Error(message)]. *)
Record JsError := mkJsError { err_name : jsstring; err_message : jsstring }.

Definition Error (message : jsstring) : JsError :=
  {| err_name := js "Error"; err_message := message |}.

Definition URIError (message : jsstring) : JsError :=
  {| err_name := js "URIError"; err_message := message |}.

(** [String(error)], as in [`${error}`]. *)
Definition errorToString (e : JsError) : jsstring :=
  err_name e ++ js ": " ++ err_message e.

Inductive Completion (A : Type) : Type :=
| Normal (a : A)
| Throw (e : JsError).
Arguments Normal {A} a.
Arguments Throw {A} e.

Abbreviation bytes := (list Byte.byte).

(** The JSON object the platform answers with; the fields the code reads.
    An absent field reads as [undefined]. *)
Record WechatJson := {
  access_token : option jsstring;
  media_id : option jsstring;
  url : option jsstring;
  errcode : option Z;
  errmsg : option jsstring;
}.

(** interface CachedImage *)
Record CachedImage := {
  cached_url : option jsstring;
  cached_media_id : option jsstring;
  timestamp : Z;
}.

(** What reaches the network. *)
Inductive NetRequest :=
| ReqGet (target : jsstring)
| ReqPostJson (target : jsstring) (title content : jsstring)
    (thumb_media_id : option jsstring) (author digest : jsstring)
| ReqPostMedia (target : jsstring) (filename : jsstring) (media : bytes).

(** What the transport hands back to [uploadImageInternal]: a body that
    parses to an object, a body on which parsing or the [errcode] test
    throws [e], or an [error] event with [e]; [e] is given as text. *)
Inductive HttpsOutcome :=
| HttpsJson (r : WechatJson)
| HttpsBadJson (e : jsstring)
| HttpsError (e : jsstring).

Record World := {
  (** value of the n-th call of [Date.now()] *)
  Date_now_at : nat -> Z;
  (** [fs.readFileSync]; an exception when the file cannot be read *)
  fs_readFileSync : jsstring -> Completion bytes;
  (** [fs.existsSync] *)
  fs_existsSync : jsstring -> bool;
  (** the [https] transport, given the number of earlier requests *)
  https_request : nat -> NetRequest -> HttpsOutcome;
  (** obsidian's [requestUrl(...).json], given the number of earlier
      requests; it throws on transport failures *)
  requestUrl_json : nat -> NetRequest -> Completion WechatJson;
  (** [path.resolve], [path.dirname], [path.join] *)
  path_resolve : list jsstring -> jsstring;
  path_dirname : jsstring -> jsstring;
  path_join : list jsstring -> jsstring;
  (** [createHash("md5").update(buffer).digest("hex")] *)
  md5_hex : bytes -> jsstring;
}.

Record State := {
  (** const uploadedImageCache = new Map<string, CachedImage>() *)
  uploadedImageCache : gmap jsstring CachedImage;
  (** number of [Date.now()] calls so far *)
  clock_ticks : nat;
  (** requests sent so far, oldest first *)
  net_log : list NetRequest;
  (** paths handed to [readFileSync] so far, oldest first *)
  fs_log : list jsstring;
  (** lines written with [console.error], oldest first *)
  console_errors : list jsstring;
}.

Definition Js (A : Type) : Type := State -> Completion A * State.

Definition ret {A} (a : A) : Js A := fun st => (Normal a, st).

Definition bind {A B} (m : Js A) (k : A -> Js B) : Js B :=
  fun st =>
    match m st with
    | (Normal a, st') => k a st'
    | (Throw e, st') => (Throw e, st')
    end.

Definition throw {A} (e : JsError) : Js A := fun st => (Throw e, st).

(** try { body } catch (error) { handler(error) } *)
Definition try_catch {A} (body : Js A) (handler : JsError -> Js A) : Js A :=
  fun st =>
    match body st with
    | (Normal a, st') => (Normal a, st')
    | (Throw e, st') => handler e st'
    end.

Declare Scope js_scope.
Delimit Scope js_scope with js.
Notation "'let*' x ':=' m 'in' k" := (bind m (fun x => k))
  (at level 10, x name, m at level 100, k at level 200) : js_scope.
Notation "'run' m 'in' k" := (bind m (fun _ => k))
  (at level 10, m at level 100, k at level 200) : js_scope.

Definition set_cache (f : gmap jsstring CachedImage -> gmap jsstring CachedImage)
    (st : State) : State :=
  {| uploadedImageCache := f (uploadedImageCache st);
     clock_ticks := clock_ticks st;
     net_log := net_log st;
     fs_log := fs_log st;
     console_errors := console_errors st |}.

Section Program.

Context (W : World).

Local Open Scope js_scope.

(** *** Primitive effects *)

Definition tick (st : State) : State :=
  {| uploadedImageCache := uploadedImageCache st;
     clock_ticks := S (clock_ticks st);
     net_log := net_log st;
     fs_log := fs_log st;
     console_errors := console_errors st |}.

Definition log_request (r : NetRequest) (st : State) : State :=
  {| uploadedImageCache := uploadedImageCache st;
     clock_ticks := clock_ticks st;
     net_log := net_log st ++ [r];
     fs_log := fs_log st;
     console_errors := console_errors st |}.

Definition log_read (p : jsstring) (st : State) : State :=
  {| uploadedImageCache := uploadedImageCache st;
     clock_ticks := clock_ticks st;
     net_log := net_log st;
     fs_log := fs_log st ++ [p];
     console_errors := console_errors st |}.

Definition log_error (line : jsstring) (st : State) : State :=
  {| uploadedImageCache := uploadedImageCache st;
     clock_ticks := clock_ticks st;
     net_log := net_log st;
     fs_log := fs_log st;
     console_errors := console_errors st ++ [line] |}.

Definition Date_now : Js Z := fun st =>
  (Normal (Date_now_at W (clock_ticks st)), tick st).

Definition readFileSync (p : jsstring) : Js bytes := fun st =>
  (fs_readFileSync W p, log_read p st).

Definition console_error (line : jsstring) : Js unit := fun st =>
  (Normal tt, log_error line st).

Definition cache_get (k : jsstring) : Js (option CachedImage) := fun st =>
  (Normal (uploadedImageCache st !! k), st).

Definition cache_delete (k : jsstring) : Js unit := fun st =>
  (Normal tt, set_cache (delete k) st).

Definition cache_set (k : jsstring) (v : CachedImage) : Js unit := fun st =>
  (Normal tt, set_cache (insert k v) st).

(** *** wechat.ts *)

Definition API_BASE : jsstring := js "https://api.weixin.qq.com/cgi-bin".

(** [data.errcode && data.errcode !== 0] *)
Definition errcode_set (r : WechatJson) : bool :=
  match errcode r with
  | Some c => negb (c =? 0)%Z
  | None => false
  end.

(** `${data.errcode} - ${data.errmsg}` *)
Definition code_and_message (r : WechatJson) : jsstring :=
  match errcode r with
  | Some c => numToStr c
  | None => js "undefined"
  end ++ js " - " ++ toStr (errmsg r).

Definition uploadImageInternal (imageBuffer : bytes)
    (filename accessToken : jsstring) : Js WechatJson := fun st =>
  let target := API_BASE ++ js "/material/add_material?access_token="
                  ++ accessToken ++ js "&type=image" in
  let req := ReqPostMedia target filename imageBuffer in
  let st' := log_request req st in
  match https_request W (length (net_log st)) req with
  | HttpsJson result =>
      if errcode_set result
      then (Throw (Error (js "上传图片失败: " ++ code_and_message result)), st')
      else (Normal result, st')
  | HttpsBadJson e => (Throw (Error (js "解析响应失败: " ++ e)), st')
  | HttpsError e => (Throw (Error (js "请求失败: " ++ e)), st')
  end.

Definition getFileHash (buffer : bytes) : jsstring := md5_hex W buffer.

(** 3 * 24 * 60 * 60 * 1000 *)
Definition cacheMaxAge : Z := 3 * 24 * 60 * 60 * 1000.

(** The answer built from a cache entry: { url, media_id }. *)
Definition cached_result (c : CachedImage) : WechatJson :=
  {| access_token := None;
     media_id := cached_media_id c;
     url := cached_url c;
     errcode := None;
     errmsg := None |}.

Definition uploadImage (imageBuffer : bytes)
    (filename accessToken : jsstring) : Js WechatJson :=
  let fileHash := getFileHash imageBuffer in
  let* cached := cache_get fileHash in
  let* reuse :=
    match cached with
    | Some c =>
        let* now := Date_now in
        let cacheAge := (now - timestamp c)%Z in
        if (cacheAge <? cacheMaxAge)%Z
        then ret (Some (cached_result c))
        else (run cache_delete fileHash in ret None)
    | None => ret None
    end in
  match reuse with
  | Some r => ret r
  | None =>
      let* result := uploadImageInternal imageBuffer filename accessToken in
      let* now := Date_now in
      run cache_set fileHash
            {| cached_url := url result;
               cached_media_id := media_id result;
               timestamp := now |} in
      ret result
  end.

(** The file name sent with an image: the last path segment, or the
    default when that is empty. *)
Definition uploadFilename (imagePath : jsstring) : jsstring :=
  orElse (lastSegment imagePath) (js "image.jpg").

(** The line [console.error] receives when an image fails. *)
Definition uploadFailedLine (imagePath : jsstring) (error : JsError)
    : jsstring :=
  js "  ✗ 上传失败: " ++ imagePath ++ js " - " ++ errorToString error.

(** The replacement text: [src=], then the URL between double quotes. *)
Definition srcReplacement (uploadResult : WechatJson) : jsstring :=
  js "src=" ++ dquoted (toStr (url uploadResult)).

(** The first two statements of the [try] block: read the file, upload
    it. *)
Definition readAndUpload (accessToken imagePath : jsstring) : Js WechatJson :=
  let* imageBuffer := readFileSync imagePath in
  uploadImage imageBuffer (uploadFilename imagePath) accessToken.

(** [firstLocalImagePath] after an iteration that reached [imagePath]. *)
Definition recordFirst (firstLocalImagePath : option jsstring)
    (imagePath : jsstring) : option jsstring :=
  if truthy firstLocalImagePath then firstLocalImagePath else Some imagePath.



(** *** uploadContentImages *)

(** The three [continue] tests on [src]: already on the platform, any
    http(s) URL, inline data. *)
Definition isSkipped (src : jsstring) : bool :=
  if startsWith src (js "https://mmbiz.qpic.cn") then true
  else if startsWith src (js "http://") || startsWith src (js "https://")
  then true
  else if startsWith src (js "data:") then true
  else false.


(** The local path of a reference that is not skipped. *)
Definition resolveImagePath (basePath : option jsstring) (src : jsstring)
    : jsstring :=
  if startsWith src (js "file:///") then
    path_resolve W [slashesToBackslashes (drop 8 src)]
  else if truthy basePath && negb (startsWith src (js "/"))
          && negb (isDrivePath src) then
    let baseDir := path_dirname W (path_resolve W [toStr basePath]) in
    path_resolve W [baseDir; src]
  else
    let normalizedSrc := slashesToBackslashes src in
    path_resolve W [normalizedSrc].

(** [new RegExp(source, 'g')]; a pattern text outside the part read by
    [parsePattern] is reported as the SyntaxError of an invalid pattern. *)
Definition new_RegExp (source : jsstring) : Js (list Atom) :=
  match parsePattern None false source with
  | Some atoms => ret atoms
  | None => throw {| err_name := js "SyntaxError";
                     err_message := js "Invalid regular expression" |}
  end.

(** [updatedHtml.replace(srcRegex, replacement)] *)
Definition String_replace (s : jsstring) (re : list Atom) (tpl : jsstring)
    : jsstring :=
  replaceGlobal re tpl [] 0 s.

(** The loop variables that survive an iteration. *)
Definition Rewrite : Type := jsstring * option jsstring.

(** One iteration of the [while] loop, for the capture [attrs] of the
    current [img] match. *)
Definition processImage (accessToken : jsstring) (basePath : option jsstring)
    (attrs : jsstring) (vars : Rewrite) : Js Rewrite :=
  let '(updatedHtml, firstLocalImagePath) := vars in
  match srcMatch attrs with
  | None => ret vars
  | Some src =>
      if isSkipped src then ret vars
      else
        let imagePath := resolveImagePath basePath src in
        let firstLocalImagePath := recordFirst firstLocalImagePath imagePath in
        try_catch
          (let* imageBuffer := readFileSync imagePath in
           let filename := uploadFilename imagePath in
           let* uploadResult := uploadImage imageBuffer filename accessToken in
           let* srcRegex := new_RegExp (srcRegex_source src) in
           ret (String_replace updatedHtml srcRegex
                  (srcReplacement uploadResult),
                firstLocalImagePath))
          (fun error =>
             run console_error (uploadFailedLine imagePath error) in
             ret (updatedHtml, firstLocalImagePath))
  end.

Fixpoint uploadContentImages_loop (accessToken : jsstring)
    (basePath : option jsstring) (matches : list jsstring) (vars : Rewrite)
    : Js Rewrite :=
  match matches with
  | [] => ret vars
  | attrs :: rest =>
      let* vars' := processImage accessToken basePath attrs vars in
      uploadContentImages_loop accessToken basePath rest vars'
  end.

(** Returns [{ html, firstLocalImagePath }]. *)
Definition uploadContentImages (htmlContent accessToken : jsstring)
    (basePath : option jsstring) : Js Rewrite :=
  uploadContentImages_loop accessToken basePath
    (imgRegex_exec 0 htmlContent) (htmlContent, None).


(** *** getAccessToken, publishArticle *)

Definition request (r : NetRequest) : Js WechatJson := fun st =>
  (requestUrl_json W (length (net_log st)) r, log_request r st).

Definition httpGet (target : jsstring) : Js WechatJson :=
  request (ReqGet target).

Definition getAccessToken (appId appSecret : jsstring) : Js WechatJson :=
  let target := API_BASE ++ js "/token?grant_type=client_credential&appid="
                  ++ appId ++ js "&secret=" ++ appSecret in
  let* data := httpGet target in
  if errcode_set data
  then throw (Error (js "获取 Access Token 失败: " ++ code_and_message data))
  else ret data.

(** [author || EMPTY], with EMPTY the empty string *)
Definition orEmpty (s : option jsstring) : jsstring :=
  match s with Some x => x | None => [] end.

Definition publishArticle (title content : jsstring)
    (thumbMediaId : option jsstring) (accessToken : jsstring)
    (author digest : option jsstring) : Js WechatJson :=
  let target := API_BASE ++ js "/draft/add?access_token=" ++ accessToken in
  let* data := request (ReqPostJson target title content thumbMediaId
                          (orEmpty author) (orEmpty digest)) in
  if errcode_set data
  then throw (Error (js "发布文章失败: " ++ code_and_message data))
  else ret data.

(** The request [publishArticle] sends. *)
Definition draft_request (title content : jsstring)
    (thumbMediaId : option jsstring) (accessToken : jsstring)
    (author digest : option jsstring) : NetRequest :=
  ReqPostJson (API_BASE ++ js "/draft/add?access_token=" ++ accessToken)
    title content thumbMediaId (orEmpty author) (orEmpty digest).

(** A failure is generic when it is an instance of the base [Error] class
    and has no class of its own. *)
Definition genericFailure (e : JsError) : Prop := err_name e = js "Error".

(** *** publishToWechat *)

Record PublishOptions := {
  appId : jsstring;
  appSecret : jsstring;
  basePath : option jsstring;
  defaultCoverPath : option jsstring;
  pluginPath : jsstring;
}.

(** [finalCoverBuffer] and [finalCoverFilename]. *)
Definition Cover : Type := option bytes * option jsstring.

(** The message of the error thrown when no cover is found. *)
Definition missingCoverMessage : jsstring :=
  js "缺少封面图。微信公众号要求必须提供封面图。" ++ [10]
  ++ js "请选择以下方式之一：" ++ [10]
  ++ js "  1. 在 Front Matter 中指定 cover 字段" ++ [10]
  ++ js "  2. 在正文中至少包含一张本地图片" ++ [10]
  ++ js "  3. 在插件设置中配置默认封面图路径" ++ [10; 10]
  ++ js "参考文档：assets/README.md".

(** Step 3, first part: without a cover from the caller, the first local
    image of the text is read. *)
Definition coverFromFirstImage (cover : Cover)
    (firstLocalImagePath : option jsstring) : Js Cover :=
  match fst cover with
  | None =>
      if truthy firstLocalImagePath then
        let p := toStr firstLocalImagePath in
        try_catch
          (let* imageBuffer := readFileSync p in
           ret (Some imageBuffer,
                Some (orElse (lastSegment p) (js "cover.jpg"))))
          (fun error =>
             run console_error (js "无法读取第一张图片: "
                                  ++ errorToString error) in
             ret cover)
      else ret cover
  | Some _ => ret cover
  end.

(** const defaultCoverPaths *)
Definition defaultCoverPaths (options : PublishOptions) : list jsstring :=
  (if truthy (defaultCoverPath options)
   then [path_resolve W [toStr (defaultCoverPath options)]] else [])
  ++ [path_join W [pluginPath options; js "assets"; js "default-cover.jpg"];
      path_join W [pluginPath options; js "assets"; js "default-cover.png"]].

(** for (const coverPath of defaultCoverPaths) *)
Fixpoint coverFromDefaults (paths : list jsstring) (cover : Cover) : Js Cover :=
  match paths with
  | [] => ret cover
  | coverPath :: rest =>
      if fs_existsSync W coverPath then
        let* found :=
          try_catch
            (let* imageBuffer := readFileSync coverPath in
             ret (Some (Some imageBuffer,
                        Some (orElse (lastSegment coverPath)
                                (js "default-cover.jpg")))))
            (fun error =>
               run console_error (js "无法读取默认封面图: "
                                    ++ errorToString error) in
               ret None) in
        match found with
        | Some c => ret c
        | None => coverFromDefaults rest cover
        end
      else coverFromDefaults rest cover
  end.

(** Step 3 of [publishToWechat], from [let finalCoverBuffer] to the
    missing-cover [throw]: the cover bytes and the file name. *)
Definition resolveCover (coverImageBuffer : option bytes)
    (coverFilename : option jsstring) (firstLocalImagePath : option jsstring)
    (options : PublishOptions) : Js (bytes * option jsstring) :=
  let* cover := coverFromFirstImage (coverImageBuffer, coverFilename)
                  firstLocalImagePath in
  let* cover :=
    match cover with
    | (None, _) => coverFromDefaults (defaultCoverPaths options) cover
    | _ => ret cover
    end in
  match cover with
  | (Some finalCoverBuffer, finalCoverFilename) =>
      ret (finalCoverBuffer, finalCoverFilename)
  | (None, _) => throw (Error missingCoverMessage)
  end.

(** The ordered fallback in the specification's terms: a list of
    candidates, each present or absent, the first present one wins. *)
Definition firstSatisfied {A : Type} (candidates : list (option A))
    : option A :=
  fold_right (fun c later => match c with Some x => Some x | None => later end)
    None candidates.

(** A cover read from [p], present when the read succeeds. *)
Definition readCandidate (p fallbackName : jsstring)
    : option (bytes * option jsstring) :=
  match fs_readFileSync W p with
  | Normal b => Some (b, Some (orElse (lastSegment p) fallbackName))
  | Throw _ => None
  end.

(** The candidates in the specification's order: the caller's bytes, the
    first local image of the text, the configured default path if it
    exists, each bundled default path if it exists. *)
Definition coverCandidates (coverImageBuffer : option bytes)
    (coverFilename firstLocalImagePath : option jsstring)
    (options : PublishOptions) : list (option (bytes * option jsstring)) :=
  option_map (fun b => (b, coverFilename)) coverImageBuffer
  :: (if truthy firstLocalImagePath
      then readCandidate (toStr firstLocalImagePath) (js "cover.jpg")
      else None)
  :: map (fun p => if fs_existsSync W p
                   then readCandidate p (js "default-cover.jpg")
                   else None)
       (defaultCoverPaths options).

Definition publishToWechat (title htmlContent : jsstring)
    (coverImageBuffer : option bytes) (coverFilename : option jsstring)
    (options : PublishOptions) (author digest : option jsstring)
    : Js WechatJson :=
  let* token := getAccessToken (appId options) (appSecret options) in
  let access_token := toStr (access_token token) in
  let* rewritten := uploadContentImages htmlContent access_token
                      (basePath options) in
  let '(updatedHtmlContent, firstLocalImagePath) := rewritten in
  let* cover := resolveCover coverImageBuffer coverFilename
                  firstLocalImagePath options in
  let '(finalCoverBuffer, finalCoverFilename) := cover in
  let* uploaded := uploadImage finalCoverBuffer
                     (match finalCoverFilename with
                      | Some ((_ :: _) as f) => f
                      | _ => js "cover.jpg"
                      end) access_token in
  publishArticle title updatedHtmlContent (media_id uploaded)
    access_token author digest.

(** The request [uploadImageInternal] sends. *)
Definition media_request (imageBuffer : bytes) (filename accessToken : jsstring)
    : NetRequest :=
  ReqPostMedia (API_BASE ++ js "/material/add_material?access_token="
                  ++ accessToken ++ js "&type=image") filename imageBuffer.

(** The transport's answer is a success: parsed JSON without a non-zero
    [errcode]. *)
Definition reply_accepted (o : HttpsOutcome) : option WechatJson :=
  match o with
  | HttpsJson r => if errcode_set r then None else Some r
  | _ => None
  end.

End Program.

(* ================================================================== *)
(** ** renderer.ts: convertObsidianImages *)
(* ================================================================== *)

Module Renderer.

(** The wiki-image pattern, [![[], one or more code units other than a
    closing bracket, []]], tried at the head of [s]: the capture. *)
Definition match_wikiImage (s : jsstring) : option jsstring :=
  match s with
  | c1 :: c2 :: c3 :: t =>
      if isChar "!" c1 && isChar "[" c2 && isChar "[" c3 then
        match span (fun c => negb (isChar "]" c)) t with
        | ((_ :: _) as content, r1 :: r2 :: _) =>
            if isChar "]" r1 && isChar "]" r2 then Some content else None
        | _ => None
        end
      else None
  | _ => None
  end.

(** [content.split('|')[0]] *)
Definition beforePipe (content : jsstring) : jsstring :=
  fst (span (fun c => negb (isChar "|" c)) content).

(** White space and line terminators, as [String.prototype.trim] strips
    them. *)
Definition isWhiteSpace (x : N) : bool :=
  (x =? 9) || (x =? 10) || (x =? 11) || (x =? 12) || (x =? 13) || (x =? 32)
  || (x =? 160) || (x =? 5760) || ((8192 <=? x) && (x <=? 8202))
  || (x =? 8232) || (x =? 8233) || (x =? 8239) || (x =? 8287)
  || (x =? 12288) || (x =? 65279).

Fixpoint trimStart (s : jsstring) : jsstring :=
  match s with
  | c :: t => if isWhiteSpace c then trimStart t else s
  | [] => []
  end.

Definition trim (s : jsstring) : jsstring :=
  rev (trimStart (rev (trimStart s))).

(** The class of the encoding replace, before negation: letters, digits,
    colon, slash, backslash, hyphen, underscore, dot. *)
Definition inPathClass (x : N) : bool :=
  isLower x || isUpper x || isDigit x || isChar ":" x || isChar "/" x
  || (x =? backslash) || isChar "-" x || isChar "_" x || isChar "." x.

(** The characters [encodeURIComponent] leaves alone. *)
Definition isUriMark (x : N) : bool :=
  isChar "!" x || isChar "~" x || isChar "*" x || isChar "'" x
  || isChar "(" x || isChar ")" x.

Definition isUriUnreserved (x : N) : bool :=
  isLower x || isUpper x || isDigit x || isChar "-" x || isChar "_" x
  || isChar "." x || isUriMark x.

Definition hexDigit (n : N) : N := if n <? 10 then 48 + n else 55 + n.

(** One octet as a percent sign and two upper-case hexadecimal digits. *)
Definition percentOctet (b : N) : jsstring :=
  [37; hexDigit (b / 16); hexDigit (b mod 16)].

(** The UTF-8 octets of a code point. *)
Definition utf8 (cp : N) : list N :=
  if cp <? 128 then [cp]
  else if cp <? 2048 then [192 + cp / 64; 128 + cp mod 64]
  else if cp <? 65536 then
    [224 + cp / 4096; 128 + (cp / 64) mod 64; 128 + cp mod 64]
  else [240 + cp / 262144; 128 + (cp / 4096) mod 64;
        128 + (cp / 64) mod 64; 128 + cp mod 64].

Definition percentUtf8 (cp : N) : jsstring := flat_map percentOctet (utf8 cp).

Definition isHighSurrogate (x : N) : bool := (55296 <=? x) && (x <=? 56319).
Definition isLowSurrogate (x : N) : bool := (56320 <=? x) && (x <=? 57343).
Definition isSurrogate (x : N) : bool := (55296 <=? x) && (x <=? 57343).

(** [encodeURIComponent]: unreserved characters stay, a surrogate pair is
    encoded as one code point, a lone surrogate is a URIError. *)
Fixpoint encodeURIComponent (s : jsstring) : Completion jsstring :=
  match s with
  | [] => Normal []
  | c :: t =>
      if isUriUnreserved c then
        match encodeURIComponent t with
        | Normal r => Normal (c :: r)
        | Throw e => Throw e
        end
      else if isLowSurrogate c then Throw (URIError (js "URI malformed"))
      else if isHighSurrogate c then
        match t with
        | d :: t' =>
            if isLowSurrogate d then
              match encodeURIComponent t' with
              | Normal r =>
                  Normal (percentUtf8 ((c - 55296) * 1024 + (d - 56320) + 65536)
                            ++ r)
              | Throw e => Throw e
              end
            else Throw (URIError (js "URI malformed"))
        | [] => Throw (URIError (js "URI malformed"))
        end
      else
        match encodeURIComponent t with
        | Normal r => Normal (percentUtf8 c ++ r)
        | Throw e => Throw e
        end
  end.

(** [imagePath.match(/^[a-zA-Z]:/)] *)
Definition hasDriveLetter (imagePath : jsstring) : bool :=
  match imagePath with
  | c1 :: c2 :: _ => isAsciiLetter c1 && isChar ":" c2
  | _ => false
  end.

(** The callback of the encoding replace, for one matched code unit. *)
Definition encodeChar (imagePath : jsstring) (char : N) : Completion jsstring :=
  if isChar ":" char && hasDriveLetter imagePath then Normal (js ":")
  else encodeURIComponent [char].

(** [imagePath.replace(/[^a-zA-Z0-9:\/\\\-_.]/g, callback)]: the callback
    runs on each code unit outside the class, from left to right. *)
Fixpoint encodePath_from (imagePath : jsstring) (s : jsstring)
    : Completion jsstring :=
  match s with
  | [] => Normal []
  | c :: t =>
      if inPathClass c then
        match encodePath_from imagePath t with
        | Normal r => Normal (c :: r)
        | Throw e => Throw e
        end
      else
        match encodeChar imagePath c with
        | Normal enc =>
            match encodePath_from imagePath t with
            | Normal r => Normal (enc ++ r)
            | Throw e => Throw e
            end
        | Throw e => Throw e
        end
  end.

(** The callback of the outer replace: the replacement of one wiki image
    with capture [content]. *)
Definition convertOne (content : jsstring) : Completion jsstring :=
  let imagePath := trim (beforePipe content) in
  match encodePath_from imagePath imagePath with
  | Normal encodedPath => Normal (js "![](" ++ encodedPath ++ js ")")
  | Throw e => Throw e
  end.

Fixpoint convertObsidianImages_from (skip : nat) (s : jsstring)
    : Completion jsstring :=
  match s with
  | [] => Normal []
  | c :: t =>
      match skip with
      | S k => convertObsidianImages_from k t
      | O =>
          match match_wikiImage s with
          | Some content =>
              match convertOne content with
              | Normal replacement =>
                  match convertObsidianImages_from (4 + length content) t with
                  | Normal r => Normal (replacement ++ r)
                  | Throw e => Throw e
                  end
              | Throw e => Throw e
              end
          | None =>
              match convertObsidianImages_from 0 t with
              | Normal r => Normal (c :: r)
              | Throw e => Throw e
              end
          end
      end
  end.

Definition convertObsidianImages (markdown : jsstring) : Completion jsstring :=
  convertObsidianImages_from 0 markdown.

(** *** The resolution rule in words *)

(** The rule as the specification words it: every character outside
    letters, digits, colon, slash, hyphen, underscore and dot is
    percent-encoded. *)
Definition inSpecClass (x : N) : bool :=
  isLower x || isUpper x || isDigit x || isChar ":" x || isChar "/" x
  || isChar "-" x || isChar "_" x || isChar "." x.

Definition specEncodePath (imagePath : jsstring) : jsstring :=
  flat_map (fun c => if inSpecClass c then [c] else percentUtf8 c) imagePath.

(** The rule as the program has it: the characters of the class (which
    holds the backslash too) and the marks [encodeURIComponent] keeps stay
    as they are, every other character is percent-encoded. *)
Definition percentEncodePath (imagePath : jsstring) : jsstring :=
  flat_map (fun c => if inPathClass c || isUriMark c then [c]
                     else percentUtf8 c) imagePath.

(** [Converted s out]: [out] is [s] with each wiki image found by the scan
    replaced by its resolution under the rule above, and every other code
    unit kept. *)
Inductive Converted : jsstring -> jsstring -> Prop :=
| Converted_nil : Converted [] []
| Converted_keep c s out :
    match_wikiImage (c :: s) = None ->
    Converted s out -> Converted (c :: s) (c :: out)
| Converted_link content rest out :
    content <> [] ->
    Forall (fun c => isChar "]" c = false) content ->
    Converted rest out ->
    Converted (js "![[" ++ content ++ js "]]" ++ rest)
      (js "![](" ++ percentEncodePath (trim (beforePipe content))
         ++ js ")" ++ out).

End Renderer.

(* ================================================================== *)
(** ** Concrete worlds, for running the program on examples *)
(* ================================================================== *)

Module Demo.

(** A stand-in for the md5 digest: each byte rendered as a letter pair.
    The theorems hold for every digest function. *)
Definition digest (b : bytes) : jsstring :=
  flat_map (fun x => let n := Byte.to_N x in [97 + n / 16; 97 + n mod 16]) b.

(** POSIX-like path functions, enough for the examples. *)
Definition resolve (segs : list jsstring) : jsstring :=
  fold_left (fun acc seg =>
               if startsWith seg (js "/") then seg
               else acc ++ js "/" ++ seg) segs (js "/vault").

Fixpoint dirname_aux (acc cur s : jsstring) : jsstring :=
  match s with
  | [] => acc
  | c :: t => if isChar "/" c then dirname_aux (acc ++ cur) [c] t
              else dirname_aux acc (cur ++ [c]) t
  end.

Definition dirname (s : jsstring) : jsstring := dirname_aux [] [] s.

Fixpoint join (segs : list jsstring) : jsstring :=
  match segs with
  | [] => []
  | [s] => s
  | s :: t => s ++ js "/" ++ join t
  end.

Definition file_bytes (tag : Byte.byte) : bytes := [tag; Byte.x01; Byte.x02].

(** The platform answers every upload with a fresh media URL. *)
Definition ok_reply (n : nat) (filename : jsstring) : WechatJson :=
  {| access_token := None;
     media_id := Some (js "MEDIA_" ++ numToStr (Z.of_nat n));
     url := Some (js "http://mmbiz.qpic.cn/" ++ numToStr (Z.of_nat n)
                    ++ js "/" ++ filename);
     errcode := None;
     errmsg := None |}.

Definition error_reply (code : Z) (msg : jsstring) : WechatJson :=
  {| access_token := None; media_id := None; url := None;
     errcode := Some code; errmsg := Some msg |}.

Definition https_ok (n : nat) (r : NetRequest) : HttpsOutcome :=
  match r with
  | ReqPostMedia _ filename _ => HttpsJson (ok_reply n filename)
  | _ => HttpsError (js "unexpected request")
  end.


Definition https_down (n : nat) (r : NetRequest) : HttpsOutcome :=
  HttpsError (js "Error: connect ETIMEDOUT").

Definition https_rejecting (n : nat) (r : NetRequest) : HttpsOutcome :=
  HttpsJson (error_reply 40001 (js "invalid credential")).

Definition ENOENT (p : jsstring) : JsError :=
  Error (js "ENOENT: no such file or directory, open '" ++ p ++ js "'").

Definition requestUrl_ok (n : nat) (r : NetRequest) : Completion WechatJson :=
  match r with
  | ReqGet _ =>
      Normal {| access_token := Some (js "TOKEN"); media_id := None;
                url := None; errcode := None; errmsg := None |}
  | _ =>
      Normal {| access_token := None; media_id := Some (js "DRAFT_1");
                url := None; errcode := None; errmsg := None |}
  end.

Definition requestUrl_rejecting (n : nat) (r : NetRequest)
    : Completion WechatJson :=
  Normal (error_reply 45009 (js "reach max api daily quota limit")).

(** A world from a clock, a file table, a transport and a JSON endpoint. *)
Definition world (clock : nat -> Z)
    (files : list (jsstring * bytes))
    (https : nat -> NetRequest -> HttpsOutcome)
    (request : nat -> NetRequest -> Completion WechatJson) : World :=
  {| Date_now_at := clock;
     fs_readFileSync := fun p =>
       match find (fun e => bool_decide (fst e = p)) files with
       | Some e => Normal (snd e)
       | None => Throw (ENOENT p)
       end;
     fs_existsSync := fun p =>
       match find (fun e => bool_decide (fst e = p)) files with
       | Some _ => true
       | None => false
       end;
     https_request := https;
     requestUrl_json := request;
     path_resolve := resolve;
     path_dirname := dirname;
     path_join := join;
     md5_hex := digest |}.

Definition initial : State :=
  {| uploadedImageCache := ∅;
     clock_ticks := 0;
     net_log := [];
     fs_log := [];
     console_errors := [] |}.

(** A clock that starts at [t0] and advances by [step] milliseconds at
    each reading. *)
Definition ticking (t0 step : Z) (n : nat) : Z := (t0 + step * Z.of_nat n)%Z.

Definition day : Z := 24 * 60 * 60 * 1000.

Definition payload : bytes := file_bytes Byte.x41.

(** The clock advances by one day at each reading; uploads succeed. *)
Definition daily_world : World :=
  world (ticking 1000 day) [] https_ok requestUrl_ok.

(** The state after one upload of [payload] from the initial state. *)
Definition after_first : State :=
  snd (uploadImage daily_world payload (js "a.png") (js "T") initial).

Definition first_entry : CachedImage :=
  {| cached_url := url (ok_reply 0 (js "a.png"));
     cached_media_id := media_id (ok_reply 0 (js "a.png"));
     timestamp := 1000 |}.

(** An entry written at time 0, looked up four days later. *)
Definition stale_entry : CachedImage :=
  {| cached_url := Some (js "http://mmbiz.qpic.cn/old");
     cached_media_id := Some (js "MEDIA_OLD");
     timestamp := 0 |}.

Definition stale_state : State :=
  {| uploadedImageCache := {[ digest payload := stale_entry ]};
     clock_ticks := 0;
     net_log := [];
     fs_log := [];
     console_errors := [] |}.

Definition late_world : World :=
  world (ticking (4 * day) 1) [] https_ok requestUrl_ok.

Definition offline_world : World :=
  world (ticking (4 * day) 1) [] https_down requestUrl_ok.

Definition rejecting_world : World :=
  world (ticking (4 * day) 1) [] https_rejecting requestUrl_ok.

(** A vault holding [a.png] and [c.png], and no [b.png]. *)
Definition vault_world : World :=
  world (ticking 0 1)
    [(js "/vault/a.png", file_bytes Byte.x41);
     (js "/vault/c.png", file_bytes Byte.x43)]
    https_ok requestUrl_ok.

Definition note : option jsstring := Some (js "/vault/note.md").

Definition img (src : jsstring) : jsstring :=
  js "<img src=" ++ dquoted src ++ js ">".

(** Three local images; the file of the second one is missing. *)
Definition three_images : jsstring :=
  js "<p>" ++ img (js "a.png") ++ js "</p><p>" ++ img (js "b.png")
    ++ js "</p><p>" ++ img (js "c.png") ++ js "</p>".

Definition three_images_rewritten : jsstring :=
  js "<p>" ++ img (js "http://mmbiz.qpic.cn/0/a.png") ++ js "</p><p>"
    ++ img (js "b.png") ++ js "</p><p>"
    ++ img (js "http://mmbiz.qpic.cn/1/c.png") ++ js "</p>".

(** A local image next to one image of each skipped kind. *)
Definition mixed_images : jsstring :=
  img (js "https://mmbiz.qpic.cn/mmbiz_png/abc/0") ++ img (js "a.png")
    ++ img (js "http://example.com/x.png")
    ++ img (js "https://example.com/y.png")
    ++ img (js "data:image/png;base64,iVBORw0KGgo=").

Definition mixed_images_rewritten : jsstring :=
  img (js "https://mmbiz.qpic.cn/mmbiz_png/abc/0")
    ++ img (js "http://mmbiz.qpic.cn/0/a.png")
    ++ img (js "http://example.com/x.png")
    ++ img (js "https://example.com/y.png")
    ++ img (js "data:image/png;base64,iVBORw0KGgo=").





(** The draft endpoint refuses with an application error. *)
Definition refusing_world : World :=
  world (ticking 0 1) [] https_ok requestUrl_rejecting.


Definition bundled_options : PublishOptions :=
  {| appId := js "APP"; appSecret := js "SECRET";
     basePath := note;
     defaultCoverPath := Some (js "/vault/covers/missing.jpg");
     pluginPath := js "/plugin" |}.

End Demo.

(* ================================================================== *)
(** * The rest of the program

    What follows embeds the code around the functions above:
    [resolvePathRelativeTo] of [src/utils.ts], [parseFrontMatter] of
    [src/parser.ts], the theme table of [src/themes.ts], and from
    [src/renderer.ts] [renderMarkdown], [getHighlightThemeCss], the choice
    of the highlight theme and the splitting of the text of code blocks in
    [wrapWithWechatStyle].  The markdown renderer, the TOML and
    front-matter parsers and the text files of the highlight themes are
    parameters.  The DOM, the CSS inliner and the plugin class of
    [main.ts], which lives on the host application's interface, are not
    modelled. *)
(* ================================================================== *)

(* ================================================================== *)
(** ** utils.ts, and quantities for stating facts about wechat.ts *)
(* ================================================================== *)

Section Utils.

Context (W : World).

Local Open Scope js_scope.

(** [resolvePathRelativeTo(filePath, basePath)] *)
Definition resolvePathRelativeTo (filePath basePath : jsstring) : jsstring :=
  if bool_decide (path_resolve W [filePath] = filePath) then filePath
  else
    let baseDir := path_dirname W (path_resolve W [basePath]) in
    path_resolve W [baseDir; filePath].

(** *** Quantities used to state facts about wechat.ts *)

(** The cache holds an entry for the payload that the next clock reading
    finds younger than [cacheMaxAge]. *)
Definition liveEntry (st : State) (buf : bytes) : bool :=
  match uploadedImageCache st !! getFileHash W buf with
  | Some c => (Date_now_at W (clock_ticks st) - timestamp c <? cacheMaxAge)%Z
  | None => false
  end.

(** The path an [img] match with capture [attrs] makes the loop read:
    none when the match has no [src] or is skipped. *)
Definition localImagePath (basePath : option jsstring) (attrs : jsstring)
    : list jsstring :=
  match srcMatch attrs with
  | Some src => if isSkipped src then []
                else [resolveImagePath W basePath src]
  | None => []
  end.

(** The resolved paths of the references of a document that are not
    skipped, in document order. *)
Definition localImagePaths (basePath : option jsstring) (html : jsstring)
    : list jsstring :=
  flat_map (localImagePath basePath) (imgRegex_exec 0 html).

(** The request [getAccessToken] sends. *)
Definition token_request (appId appSecret : jsstring) : NetRequest :=
  ReqGet (API_BASE ++ js "/token?grant_type=client_credential&appid="
            ++ appId ++ js "&secret=" ++ appSecret).

Definition isMediaRequest (r : NetRequest) : Prop :=
  match r with ReqPostMedia _ _ _ => True | _ => False end.

Definition isDraftRequest (r : NetRequest) : Prop :=
  match r with ReqPostJson _ _ _ _ _ _ => True | _ => False end.

(** The clock readings up to the [n]th are less than [cacheMaxAge]
    apart: a run that reads the clock no more often than that is shorter
    than the validity window. *)
Definition clockWithinWindow (n : nat) : Prop :=
  forall i j, (i <= j <= n)%nat ->
              (Date_now_at W j - Date_now_at W i < cacheMaxAge)%Z.

(** No file can be read at [p]. *)
Definition unreadable (p : jsstring) : Prop :=
  exists e, fs_readFileSync W p = Throw e.

(** [finalCoverFilename || "cover.jpg"], the file name the cover is
    uploaded under. *)
Definition coverUploadName (finalCoverFilename : option jsstring) : jsstring :=
  match finalCoverFilename with
  | Some ((_ :: _) as f) => f
  | _ => js "cover.jpg"
  end.

(** Between two states nothing was sent, the cache was left alone and the
    clock was not read. *)
Definition quiet (st st' : State) : Prop :=
  net_log st' = net_log st
  /\ uploadedImageCache st' = uploadedImageCache st
  /\ clock_ticks st' = clock_ticks st.

(** Between two states only media uploads were sent. *)
Definition onlyMediaSent (st st' : State) : Prop :=
  exists media, net_log st' = net_log st ++ media
                /\ Forall isMediaRequest media.

(** The cache holds, under the digest [d], the answer [r] of an upload,
    stamped with one of the clock readings taken so far. *)
Definition holdsUpload (r : WechatJson) (d : jsstring) (st : State) : Prop :=
  exists c j,
    uploadedImageCache st !! d = Some c
    /\ cached_media_id c = media_id r /\ cached_url c = url r
    /\ timestamp c = Date_now_at W j /\ (j <= clock_ticks st)%nat.

(** From [st] to [st'] the clock only advanced, and an upload held in the
    cache stayed there if the clock stayed within the window. *)
Definition keepsUpload (n : nat) (r : WechatJson) (d : jsstring)
    (st st' : State) : Prop :=
  (clock_ticks st <= clock_ticks st')%nat
  /\ ((clock_ticks st' <= n)%nat -> holdsUpload r d st -> holdsUpload r d st').

End Utils.

(** A printable ASCII character other than the space. *)
Definition printable (c : N) : bool := (33 <=? c) && (c <=? 126).

(* ================================================================== *)
(** ** parser.ts: parseFrontMatter *)
(* ================================================================== *)

Module Parser.

Import Renderer.

(** The two parsers the module delegates to; [Data] is what they produce
    for the front matter.  [toml_parse] is [toml.parse]; [matter] is the
    [gray-matter] call with its options, giving [content] and [data]. *)
Record Engines (Data : Type) := {
  toml_parse : jsstring -> Completion Data;
  matter : jsstring -> Completion (jsstring * Data);
}.
Arguments toml_parse {Data} _ _.
Arguments matter {Data} _ _.

Definition plus : N := 43.
Definition CR : N := 13.
Definition LF : N := 10.

(** The end of the block pattern, an optional carriage return, a line
    feed and three plus signs, tried at the head of [s]: what follows. *)
Definition closing (s : jsstring) : option jsstring :=
  if startsWith s [CR; LF; plus; plus; plus] then Some (drop 5 s)
  else if startsWith s [LF; plus; plus; plus] then Some (drop 4 s)
  else None.

(** The lazy body of the block pattern: the shortest non-empty capture
    that the end of the pattern follows. *)
Fixpoint lazyBody (captured : jsstring) (s : jsstring)
    : option (jsstring * jsstring) :=
  match s with
  | [] => None
  | c :: t =>
      match closing t with
      | Some rest => Some (rev (c :: captured), rest)
      | None => lazyBody (c :: captured) t
      end
  end.

(** The block pattern, anchored at the start of [s]: three plus signs, an
    optional carriage return, a line feed, the lazy body, the end.  Gives
    the capture and what follows the whole match. *)
Definition matchTomlBlock (s : jsstring) : option (jsstring * jsstring) :=
  if startsWith s [plus; plus; plus; CR; LF] then lazyBody [] (drop 5 s)
  else if startsWith s [plus; plus; plus; LF] then lazyBody [] (drop 4 s)
  else None.

Section WithEngines.

Context {Data : Type} (E : Engines Data).

(** Returns [{ content, data }]. *)
Definition parseFrontMatter (markdown : jsstring)
    : Completion (jsstring * Data) :=
  let trimmed := trimStart markdown in
  if startsWith trimmed (js "+++") then
    match matchTomlBlock trimmed with
    | Some (tomlContent, rest) =>
        let content := trim rest in
        match toml_parse E tomlContent with
        | Normal data => Normal (content, data)
        | Throw error =>
            Throw (Error (js "TOML 解析失败: " ++ errorToString error))
        end
    | None => matter E markdown
    end
  else matter E markdown.

End WithEngines.

(** [s] holds no occurrence of [pat]. *)
Fixpoint freeOf (pat s : jsstring) : bool :=
  match s with
  | [] => true
  | _ :: t => negb (startsWith s pat) && freeOf pat t
  end.

(** A line end as the block pattern takes it: a line feed, with or
    without a carriage return before it. *)
Definition lineEnd (e : jsstring) : Prop := e = [LF] \/ e = [CR; LF].

(** Stand-ins for the two parsers, for running examples: the front
    matter data is the raw text handed over, and a text that starts with
    an equals sign is a syntax error. *)
Definition raw_engines : Engines jsstring :=
  {| toml_parse := fun s =>
       if startsWith s (js "=")
       then Throw {| err_name := js "SyntaxError";
                     err_message := js "Expected a key" |}
       else Normal s;
     matter := fun s => Normal (s, []) |}.

End Parser.

(* ================================================================== *)
(** ** renderer.ts: text of code blocks, highlight theme *)
(* ================================================================== *)

Module Render.

Import Renderer.

(** The pattern of the post-processing replace, an empty-text image whose
    address starts with [file:///], has one or more code units other than
    a closing parenthesis, and is closed by one, tried at the head of
    [s]: the captured address. *)
Definition match_fileImage (s : jsstring) : option jsstring :=
  if startsWith s (js "![](file:///") then
    match span (fun c => negb (isChar ")" c)) (drop 12 s) with
    | ((_ :: _) as path, _ :: _) => Some (js "file:///" ++ path)
    | _ => None
    end
  else None.

(** The tag the callback returns for the captured address. *)
Definition imgTag (fileUrl : jsstring) : jsstring :=
  js "<img src=" ++ dquoted fileUrl ++ js " alt=" ++ dquoted [] ++ js ">".

(** The global replace: each match, from left to right and without
    overlap, becomes its tag. *)
Fixpoint imgTags_from (skip : nat) (s : jsstring) : jsstring :=
  match s with
  | [] => []
  | c :: t =>
      match skip with
      | S k => imgTags_from k t
      | O =>
          match match_fileImage s with
          | Some fileUrl => imgTag fileUrl ++ imgTags_from (4 + length fileUrl) t
          | None => c :: imgTags_from 0 t
          end
      end
  end.

(** [renderMarkdown]; [marked] is the configured markdown renderer. *)
Definition renderMarkdown (marked : jsstring -> Completion jsstring)
    (markdown : jsstring) : Completion jsstring :=
  match convertObsidianImages markdown with
  | Normal convertedMarkdown =>
      match marked convertedMarkdown with
      | Normal html => Normal (imgTags_from 0 html)
      | Throw e => Throw e
      end
  | Throw e => Throw e
  end.

(** [s.replace(/pat/g, rep)] for a pattern that is a literal text and a
    replacement without dollar signs: each occurrence, from left to right
    and without overlap, becomes [rep]. *)
Fixpoint replaceLiteral_from (pat rep : jsstring) (skip : nat) (s : jsstring)
    : jsstring :=
  match s with
  | [] => []
  | c :: t =>
      match skip with
      | S k => replaceLiteral_from pat rep k t
      | O =>
          if startsWith s pat
          then rep ++ replaceLiteral_from pat rep (length pat - 1) t
          else c :: replaceLiteral_from pat rep 0 t
      end
  end.

(** The last step of [wrapWithWechatStyle]: the line feed before an
    opening [li] tag and the one after a closing [li] tag are removed. *)
Definition removeListBreaks (result : jsstring) : jsstring :=
  replaceLiteral_from (js "</li>" ++ [10]) (js "</li>") 0
    (replaceLiteral_from (10 :: js "<li") (js "<li") 0 result).

(** Any code unit but the line feed. *)
Definition notLineFeed (c : N) : bool := negb (c =? 10).

End Render.

Module CodeText.

(** What a text node of a code block is replaced with: text, a line
    break, or the fixed pair of spans that stands for one space. *)
Inductive CodeNode :=
| TextNode (text : jsstring)
| BrNode
| SpaceSpan.

Definition flush (currentText : jsstring) : list CodeNode :=
  match currentText with
  | [] => []
  | _ => [TextNode (rev currentText)]
  end.

(** The [for] loop over the code units of [text]; [currentText] is kept
    reversed. *)
Fixpoint splitLoop (currentText : jsstring) (text : jsstring)
    : list CodeNode :=
  match text with
  | [] => flush currentText
  | char :: t =>
      if char =? 10 then flush currentText ++ BrNode :: splitLoop [] t
      else if char =? 32 then flush currentText ++ SpaceSpan :: splitLoop [] t
      else splitLoop (char :: currentText) t
  end.

(** [text.includes(c)] for a single code unit. *)
Definition includes (text : jsstring) (c : N) : bool := existsb (N.eqb c) text.

(** The nodes that stand for a text node with content [text]: the node
    itself unless the text holds a line feed or a space. *)
Definition processTextNode (text : jsstring) : list CodeNode :=
  if includes text 10 || includes text 32 then splitLoop [] text
  else [TextNode text].

(** The source text a node stands for. *)
Definition nodeSource (n : CodeNode) : jsstring :=
  match n with
  | TextNode text => text
  | BrNode => [10]
  | SpaceSpan => [32]
  end.

(** A line feed or a space: what the platform's editor would drop. *)
Definition isLayout (c : N) : bool := (c =? 10) || (c =? 32).

(** A text node that is not empty and holds no line feed and no space;
    any other node. *)
Definition wellSplit (n : CodeNode) : Prop :=
  match n with
  | TextNode text => text <> [] /\ Forall (fun c => isLayout c = false) text
  | _ => True
  end.

End CodeText.

Module Highlight.

(** Line terminators, after which [^] matches under the [m] flag. *)
Definition isLineTerminator (x : N) : bool :=
  (x =? 10) || (x =? 13) || (x =? 8232) || (x =? 8233).

Definition md2mpPrefix : jsstring := js "#md2mp ".

(** [css.replace(/^([^{]+)(\{)/gm, "#md2mp $1$2")]: at a line start, a
    non-empty run without an opening brace that an opening brace follows
    gets the prefix; the run and the brace are copied. *)
Fixpoint prefixSelectors (lineStart : bool) (skip : nat) (css : jsstring)
    : jsstring :=
  match css with
  | [] => []
  | c :: t =>
      let next := isLineTerminator c in
      match skip with
      | S k => c :: prefixSelectors next k t
      | O =>
          if lineStart then
            match span (fun x => negb (isChar "{" x)) css with
            | ((_ :: _) as selector, _ :: _) =>
                md2mpPrefix ++ c :: prefixSelectors next (length selector) t
            | _ => c :: prefixSelectors next 0 t
            end
          else c :: prefixSelectors next 0 t
      end
  end.

Section WithFiles.

Context (W : World) (readText : jsstring -> Completion jsstring).

Definition stylePath (pluginPath theme : jsstring) : jsstring :=
  path_join W [pluginPath; js "node_modules"; js "highlight.js";
               js "styles"; theme ++ js ".min.css"].

(** [getHighlightThemeCss(pluginPath, theme)]; [readText] is
    [readFileSync(path, "utf-8")]. *)
Definition getHighlightThemeCss (pluginPath theme : jsstring)
    : Completion jsstring :=
  match readText (stylePath pluginPath theme) with
  | Normal css => Normal (prefixSelectors true 0 css)
  | Throw _ =>
      match readText (stylePath pluginPath (js "github")) with
      | Normal defaultCss => Normal (prefixSelectors true 0 defaultCss)
      | Throw e => Throw e
      end
  end.

End WithFiles.

End Highlight.

(* ================================================================== *)
(** ** themes.ts *)
(* ================================================================== *)

Module Themes.

Record ThemeMeta := {
  id : jsstring;
  name : jsstring;
  description : jsstring;
  author : jsstring;
  highlightTheme : option jsstring;
}.

Definition themes : list ThemeMeta :=
  [ {| id := js "default"; name := js "Default";
       description := js "经典简洁布局，适合长文阅读";
       author := js "md2mp"; highlightTheme := None |};
    {| id := js "lapis"; name := js "Lapis";
       description := js "清新蓝色主题";
       author := js "YiNN"; highlightTheme := None |};
    {| id := js "orangeheart"; name := js "OrangeHeart";
       description := js "温暖橙色主题，充满活力";
       author := js "evgo2017"; highlightTheme := None |};
    {| id := js "rainbow"; name := js "Rainbow";
       description := js "彩虹清新主题，多彩活泼";
       author := js "thezbm"; highlightTheme := None |};
    {| id := js "pie"; name := js "Pie";
       description := js "少数派风格，现代简洁";
       author := js "kevinzhao2233"; highlightTheme := None |};
    {| id := js "maize"; name := js "Maize";
       description := js "柔和黄色主题，温暖舒适";
       author := js "BEATREE"; highlightTheme := None |};
    {| id := js "purple"; name := js "Purple";
       description := js "紫色极简主题，优雅大方";
       author := js "hliu202"; highlightTheme := None |};
    {| id := js "phycat"; name := js "Phycat";
       description := js "物理猫薄荷主题，清新绿色";
       author := js "sumruler"; highlightTheme := None |};
    {| id := js "ocean"; name := js "Ocean";
       description := js "深海蓝色主题，适合技术文章";
       author := js "md2mp"; highlightTheme := Some (js "atom-one-dark") |};
    {| id := js "forest"; name := js "Forest";
       description := js "森林绿色主题，清新自然";
       author := js "md2mp"; highlightTheme := Some (js "atom-one-dark") |};
    {| id := js "sunset"; name := js "Sunset";
       description := js "日落渐变主题，温暖活力";
       author := js "md2mp"; highlightTheme := Some (js "atom-one-dark") |};
    {| id := js "cherry"; name := js "Cherry";
       description := js "樱花粉色主题，温柔浪漫";
       author := js "md2mp"; highlightTheme := None |};
    {| id := js "midnight"; name := js "Midnight";
       description := js "暗色主题，适合夜间阅读";
       author := js "md2mp"; highlightTheme := Some (js "monokai") |} ].

(** [themes.find((t) => t.id === themeId)] *)
Definition getThemeMeta (themeId : jsstring) : option ThemeMeta :=
  find (fun t => bool_decide (id t = themeId)) themes.

(** The highlight theme [wrapWithWechatStyle] ends up using: the theme's
    own one when [themeId] is given, known and has one, the caller's
    otherwise. *)
Definition actualHighlightTheme (highlightTheme : jsstring)
    (themeId : option jsstring) : jsstring :=
  if truthy themeId then
    match getThemeMeta (toStr themeId) with
    | Some themeMeta =>
        if truthy (Themes.highlightTheme themeMeta)
        then toStr (Themes.highlightTheme themeMeta)
        else highlightTheme
    | None => highlightTheme
    end
  else highlightTheme.

End Themes.

(* ================================================================== *)
(** ** The upload cache *)
(* ================================================================== *)

Section CacheFacts.

Context (W : World).

Lemma uploadImageInternal_accepted buf fn tok st r :
  reply_accepted (https_request W (length (net_log st)) (media_request buf fn tok))
    = Some r ->
  uploadImageInternal W buf fn tok st
    = (Normal r, log_request (media_request buf fn tok) st).
Proof.
  unfold uploadImageInternal, reply_accepted, media_request.
  destruct (https_request W _ _) as [r'| |]; try discriminate.
  destruct (errcode_set r'); [discriminate|].
  intros [= ->]. reflexivity.
Qed.

Lemma uploadImageInternal_refused buf fn tok st :
  reply_accepted (https_request W (length (net_log st)) (media_request buf fn tok))
    = None ->
  exists e, uploadImageInternal W buf fn tok st
    = (Throw e, log_request (media_request buf fn tok) st).
Proof.
  unfold uploadImageInternal, reply_accepted, media_request.
  destruct (https_request W _ _) as [r'| |]; eauto.
  destruct (errcode_set r'); [eauto|discriminate].
Qed.

(** A live entry: the call answers from the cache and only the clock
    moves. *)
Lemma uploadImage_hit buf fn tok st c :
  uploadedImageCache st !! getFileHash W buf = Some c ->
  (Date_now_at W (clock_ticks st) - timestamp c < cacheMaxAge)%Z ->
  uploadImage W buf fn tok st = (Normal (cached_result c), tick st).
Proof.
  intros Hc Hage. unfold uploadImage, bind, cache_get, Date_now, ret. simpl.
  rewrite Hc. simpl.
  destruct (Z.ltb_spec (Date_now_at W (clock_ticks st) - timestamp c) cacheMaxAge);
    [reflexivity | lia].
Qed.

(** No entry: one request, and on success the entry is written with the
    clock reading taken after the upload. *)
Lemma uploadImage_miss buf fn tok st :
  uploadedImageCache st !! getFileHash W buf = None ->
  uploadImage W buf fn tok st =
    match uploadImageInternal W buf fn tok st with
    | (Normal result, st1) =>
        (Normal result,
         set_cache (insert (getFileHash W buf)
                      {| cached_url := url result;
                         cached_media_id := media_id result;
                         timestamp := Date_now_at W (clock_ticks st1) |})
           (tick st1))
    | (Throw e, st1) => (Throw e, st1)
    end.
Proof.
  intros Hc. unfold uploadImage, bind, cache_get, ret. simpl.
  rewrite Hc. simpl.
  destruct (uploadImageInternal W buf fn tok st) as [[result|e] st1]; reflexivity.
Qed.

(** An expired entry: it is deleted, then the call proceeds as on a miss. *)
Lemma uploadImage_expired buf fn tok st c :
  uploadedImageCache st !! getFileHash W buf = Some c ->
  (cacheMaxAge <= Date_now_at W (clock_ticks st) - timestamp c)%Z ->
  uploadImage W buf fn tok st =
    let st0 := set_cache (delete (getFileHash W buf)) (tick st) in
    match uploadImageInternal W buf fn tok st0 with
    | (Normal result, st1) =>
        (Normal result,
         set_cache (insert (getFileHash W buf)
                      {| cached_url := url result;
                         cached_media_id := media_id result;
                         timestamp := Date_now_at W (clock_ticks st1) |})
           (tick st1))
    | (Throw e, st1) => (Throw e, st1)
    end.
Proof.
  intros Hc Hage. unfold uploadImage, bind, cache_get, Date_now, ret, cache_delete.
  simpl. rewrite Hc. simpl.
  destruct (Z.ltb_spec (Date_now_at W (clock_ticks st) - timestamp c) cacheMaxAge);
    [lia|]. reflexivity.
Qed.

(** After a successful call the cache holds the returned URL and media
    identifier under the payload's digest. *)
Lemma uploadImage_success_entry buf fn tok st r st1 :
  uploadImage W buf fn tok st = (Normal r, st1) ->
  exists c, uploadedImageCache st1 !! getFileHash W buf = Some c
            /\ cached_url c = url r /\ cached_media_id c = media_id r.
Proof.
  destruct (uploadedImageCache st !! getFileHash W buf) as [c|] eqn:Hc.
  - destruct (Z.lt_ge_cases (Date_now_at W (clock_ticks st) - timestamp c) cacheMaxAge)
      as [Hlive|Hold].
    + rewrite (uploadImage_hit _ _ _ _ _ Hc Hlive). intros [= <- <-].
      exists c. simpl. auto.
    + rewrite (uploadImage_expired _ _ _ _ _ Hc Hold). cbv zeta.
      destruct (uploadImageInternal W buf fn tok _) as [[result|e] st0];
        intros [= <- <-].
      eexists. simpl. rewrite lookup_insert_eq. split; [reflexivity|]. auto.
  - rewrite (uploadImage_miss _ _ _ _ Hc).
    destruct (uploadImageInternal W buf fn tok _) as [[result|e] st0];
      intros [= <- <-].
    eexists. simpl. rewrite lookup_insert_eq. split; [reflexivity|]. auto.
Qed.

End CacheFacts.

(** C1.  A payload uploaded twice within the validity window: whatever
    happens in between, as long as the digest's entry is left alone and the
    second call reads the clock less than [cacheMaxAge] after the entry's
    timestamp, the second call sends nothing over the network, touches no
    file, leaves the cache as it is and returns the URL and the media
    identifier of the first call. *)
Theorem uploadImage_twice_within_ttl (W : World) (buf : bytes)
    (fn1 tok1 fn2 tok2 : jsstring) (st st1 st1' : State) (r1 : WechatJson) :
  uploadImage W buf fn1 tok1 st = (Normal r1, st1) ->
  uploadedImageCache st1' !! getFileHash W buf
    = uploadedImageCache st1 !! getFileHash W buf ->
  (forall c, uploadedImageCache st1 !! getFileHash W buf = Some c ->
             (Date_now_at W (clock_ticks st1') - timestamp c < cacheMaxAge)%Z) ->
  exists r2 st2,
    uploadImage W buf fn2 tok2 st1' = (Normal r2, st2)
    /\ net_log st2 = net_log st1'
    /\ fs_log st2 = fs_log st1'
    /\ uploadedImageCache st2 = uploadedImageCache st1'
    /\ url r2 = url r1
    /\ media_id r2 = media_id r1.
Proof.
  intros Hfirst Hsame Hwindow.
  destruct (uploadImage_success_entry W _ _ _ _ _ _ Hfirst) as (c & Hc & Hu & Hm).
  specialize (Hwindow c Hc). rewrite <- Hsame in Hc.
  exists (cached_result c), (tick st1').
  rewrite (uploadImage_hit W _ _ _ _ _ Hc Hwindow). simpl. auto 10.
Qed.

Lemma uploadImage_twice_within_ttl_witness :
  exists r2 st2,
    uploadImage Demo.daily_world Demo.payload (js "copy.png") (js "T")
      Demo.after_first = (Normal r2, st2)
    /\ net_log st2 = net_log Demo.after_first
    /\ fs_log st2 = fs_log Demo.after_first
    /\ uploadedImageCache st2 = uploadedImageCache Demo.after_first
    /\ url r2 = url (Demo.ok_reply 0 (js "a.png"))
    /\ media_id r2 = media_id (Demo.ok_reply 0 (js "a.png")).
Proof.
  apply (uploadImage_twice_within_ttl Demo.daily_world Demo.payload
           (js "a.png") (js "T") (js "copy.png") (js "T")
           Demo.initial Demo.after_first Demo.after_first
           (Demo.ok_reply 0 (js "a.png"))).
  - vm_compute. reflexivity.
  - reflexivity.
  - intros c Hc.
    assert (E : uploadedImageCache Demo.after_first
                  !! getFileHash Demo.daily_world Demo.payload
                = Some Demo.first_entry) by (vm_compute; reflexivity).
    rewrite E in Hc. injection Hc as <-. vm_compute. reflexivity.
Defined.

(** The plainest case: nothing cached for the payload, an accepted upload,
    and the next call reading the clock less than [cacheMaxAge] after the
    reading that stamped the entry. *)
Lemma uploadImage_fresh_then_reuse (W : World) (buf : bytes)
    (fn1 tok1 fn2 tok2 : jsstring) (st : State) (r : WechatJson) :
  uploadedImageCache st !! getFileHash W buf = None ->
  reply_accepted (https_request W (length (net_log st))
                    (media_request buf fn1 tok1)) = Some r ->
  (Date_now_at W (S (clock_ticks st)) - Date_now_at W (clock_ticks st)
   < cacheMaxAge)%Z ->
  exists st1 r2 st2,
    uploadImage W buf fn1 tok1 st = (Normal r, st1)
    /\ net_log st1 = net_log st ++ [media_request buf fn1 tok1]
    /\ uploadImage W buf fn2 tok2 st1 = (Normal r2, st2)
    /\ net_log st2 = net_log st1
    /\ url r2 = url r /\ media_id r2 = media_id r.
Proof.
  intros Hnone Hr Hwindow.
  rewrite (uploadImage_miss W _ _ _ _ Hnone),
          (uploadImageInternal_accepted W _ _ _ _ _ Hr).
  eexists. eexists. eexists. split; [reflexivity|]. split; [reflexivity|].
  rewrite (uploadImage_hit W buf fn2 tok2 _
             {| cached_url := url r; cached_media_id := media_id r;
                timestamp := Date_now_at W (clock_ticks st) |}).
  - simpl. auto.
  - simpl. apply lookup_insert_eq.
  - simpl. exact Hwindow.
Qed.

(** C9.  A call answered from a live entry leaves the whole cache as it
    was: the entry keeps its original timestamp, nothing is sent and no
    file is read.  The validity window therefore keeps running from the
    original upload: once a later clock reading is [cacheMaxAge] or more
    past that timestamp, the next call for the same bytes uploads again,
    however recently the entry was reused. *)
Theorem uploadImage_hit_does_not_refresh (W : World) (buf : bytes)
    (fn tok : jsstring) (st : State) (c : CachedImage) :
  uploadedImageCache st !! getFileHash W buf = Some c ->
  (Date_now_at W (clock_ticks st) - timestamp c < cacheMaxAge)%Z ->
  exists st',
    uploadImage W buf fn tok st = (Normal (cached_result c), st')
    /\ uploadedImageCache st' = uploadedImageCache st
    /\ uploadedImageCache st' !! getFileHash W buf = Some c
    /\ net_log st' = net_log st
    /\ fs_log st' = fs_log st
    /\ forall fn' tok' st'',
         uploadedImageCache st'' = uploadedImageCache st' ->
         (cacheMaxAge <= Date_now_at W (clock_ticks st'') - timestamp c)%Z ->
         net_log (snd (uploadImage W buf fn' tok' st''))
           = net_log st'' ++ [media_request buf fn' tok'].
Proof.
  intros Hc Hlive. exists (tick st).
  rewrite (uploadImage_hit W _ _ _ _ _ Hc Hlive). simpl.
  repeat split; auto.
  intros fn' tok' st'' Hsame Hold.
  assert (Hc' : uploadedImageCache st'' !! getFileHash W buf = Some c)
    by (rewrite Hsame; exact Hc).
  rewrite (uploadImage_expired W _ _ _ _ _ Hc' Hold). cbv zeta.
  destruct (reply_accepted (https_request W
              (length (net_log (set_cache (delete (getFileHash W buf))
                                  (tick st''))))
              (media_request buf fn' tok'))) as [r|] eqn:Hr.
  - rewrite (uploadImageInternal_accepted W _ _ _ _ _ Hr). reflexivity.
  - destruct (uploadImageInternal_refused W _ _ _ _ Hr) as (e & ->). reflexivity.
Qed.

Lemma uploadImage_hit_does_not_refresh_witness :
  exists st',
    uploadImage Demo.daily_world Demo.payload (js "copy.png") (js "T")
      Demo.after_first = (Normal (cached_result Demo.first_entry), st')
    /\ uploadedImageCache st' = uploadedImageCache Demo.after_first
    /\ uploadedImageCache st' !! getFileHash Demo.daily_world Demo.payload
         = Some Demo.first_entry
    /\ net_log st' = net_log Demo.after_first
    /\ fs_log st' = fs_log Demo.after_first
    /\ forall fn' tok' st'',
         uploadedImageCache st'' = uploadedImageCache st' ->
         (cacheMaxAge <= Date_now_at Demo.daily_world (clock_ticks st'')
                          - timestamp Demo.first_entry)%Z ->
         net_log (snd (uploadImage Demo.daily_world Demo.payload fn' tok' st''))
           = net_log st'' ++ [media_request Demo.payload fn' tok'].
Proof.
  apply (uploadImage_hit_does_not_refresh Demo.daily_world Demo.payload
           (js "copy.png") (js "T") Demo.after_first Demo.first_entry).
  - vm_compute. reflexivity.
  - vm_compute. reflexivity.
Defined.

(** C2.  The validity window is 259,200,000 ms.  When the entry found for
    the payload's digest is that old or older at lookup time, the call
    behaves as a call on the cache without the entry: it sends one upload
    request, and when the upload is accepted it returns the platform's
    answer and writes the digest's entry anew, stamped with the clock
    reading taken after the upload, which is later than the old timestamp
    when the clock did not run backwards. *)
Theorem uploadImage_expired_reuploads (W : World) (buf : bytes)
    (fn tok : jsstring) (st : State) (c : CachedImage) :
  uploadedImageCache st !! getFileHash W buf = Some c ->
  (cacheMaxAge <= Date_now_at W (clock_ticks st) - timestamp c)%Z ->
  cacheMaxAge = 259200000%Z
  /\ uploadImage W buf fn tok st
     = uploadImage W buf fn tok
         (set_cache (delete (getFileHash W buf)) (tick st))
  /\ net_log (snd (uploadImage W buf fn tok st))
     = net_log st ++ [media_request buf fn tok]
  /\ forall r,
       reply_accepted (https_request W (length (net_log st))
                         (media_request buf fn tok)) = Some r ->
       let stamp := Date_now_at W (S (clock_ticks st)) in
       exists st',
         uploadImage W buf fn tok st = (Normal r, st')
         /\ uploadedImageCache st'
            = <[getFileHash W buf :=
                  {| cached_url := url r; cached_media_id := media_id r;
                     timestamp := stamp |}]> (uploadedImageCache st)
         /\ ((Date_now_at W (clock_ticks st) <= stamp)%Z ->
             (timestamp c < stamp)%Z).
Proof.
  intros Hc Hold. split; [reflexivity|]. split.
  { rewrite (uploadImage_expired W _ _ _ _ _ Hc Hold). cbv zeta.
    rewrite uploadImage_miss by (simpl; apply lookup_delete_eq).
    reflexivity. }
  rewrite (uploadImage_expired W _ _ _ _ _ Hc Hold). cbv zeta.
  destruct (reply_accepted (https_request W (length (net_log st))
              (media_request buf fn tok))) as [r|] eqn:Hr.
  - rewrite (uploadImageInternal_accepted W buf fn tok
               (set_cache (delete (getFileHash W buf)) (tick st)) r Hr).
    split; [reflexivity|].
    intros r' [= <-]. eexists. split; [reflexivity|]. simpl. split.
    + apply insert_delete_eq.
    + unfold cacheMaxAge in Hold. lia.
  - destruct (uploadImageInternal_refused W buf fn tok
               (set_cache (delete (getFileHash W buf)) (tick st)) Hr)
      as (e & ->).
    split; [reflexivity|]. intros r' [=].
Qed.

Lemma uploadImage_expired_reuploads_witness :
  exists st',
    uploadImage Demo.late_world Demo.payload (js "a.png") (js "T")
      Demo.stale_state = (Normal (Demo.ok_reply 0 (js "a.png")), st')
    /\ uploadedImageCache st'
       = <[getFileHash Demo.late_world Demo.payload :=
             {| cached_url := url (Demo.ok_reply 0 (js "a.png"));
                cached_media_id := media_id (Demo.ok_reply 0 (js "a.png"));
                timestamp := Date_now_at Demo.late_world
                               (S (clock_ticks Demo.stale_state)) |}]>
           (uploadedImageCache Demo.stale_state)
    /\ ((Date_now_at Demo.late_world (clock_ticks Demo.stale_state)
         <= Date_now_at Demo.late_world (S (clock_ticks Demo.stale_state)))%Z ->
        (timestamp Demo.stale_entry
         < Date_now_at Demo.late_world (S (clock_ticks Demo.stale_state)))%Z).
Proof.
  apply (uploadImage_expired_reuploads Demo.late_world Demo.payload
           (js "a.png") (js "T") Demo.stale_state Demo.stale_entry).
  - vm_compute. reflexivity.
  - vm_compute. discriminate.
  - vm_compute. reflexivity.
Defined.

(** The same stale entry with the network down: the call throws and the
    entry is gone. *)
Example uploadImage_expired_offline :
  let res := uploadImage Demo.offline_world Demo.payload (js "a.png") (js "T")
               Demo.stale_state in
  uploadedImageCache Demo.stale_state !! Demo.digest Demo.payload
    = Some Demo.stale_entry
  /\ fst res = Throw (Error (js "请求失败: Error: connect ETIMEDOUT"))
  /\ length (net_log (snd res)) = 1%nat
  /\ uploadedImageCache (snd res) !! Demo.digest Demo.payload = None.
Proof. vm_compute. repeat split; reflexivity. Qed.

(** C10.  An expired entry is removed before the new upload is sent: the
    call is the same computation as a call on the cache without the entry,
    whatever the upload's outcome.  When the upload then fails, the call
    throws with the request sent and the cache equal to the old cache
    without the digest's entry; nothing puts the expired entry back. *)
Theorem uploadImage_expired_failure_evicts (W : World) (buf : bytes)
    (fn tok : jsstring) (st : State) (c : CachedImage) :
  uploadedImageCache st !! getFileHash W buf = Some c ->
  (cacheMaxAge <= Date_now_at W (clock_ticks st) - timestamp c)%Z ->
  reply_accepted (https_request W (length (net_log st))
                    (media_request buf fn tok)) = None ->
  uploadImage W buf fn tok st
    = uploadImageInternal W buf fn tok
        (set_cache (delete (getFileHash W buf)) (tick st))
  /\ exists e st',
       uploadImage W buf fn tok st = (Throw e, st')
       /\ uploadedImageCache st'
          = delete (getFileHash W buf) (uploadedImageCache st)
       /\ uploadedImageCache st' !! getFileHash W buf = None
       /\ net_log st' = net_log st ++ [media_request buf fn tok].
Proof.
  intros Hc Hold Hr. rewrite (uploadImage_expired W _ _ _ _ _ Hc Hold). cbv zeta.
  destruct (uploadImageInternal_refused W buf fn tok
              (set_cache (delete (getFileHash W buf)) (tick st)) Hr)
    as (e & ->).
  split; [reflexivity|].
  exists e. eexists. split; [reflexivity|]. simpl.
  split; [reflexivity|]. split; [apply lookup_delete_eq | reflexivity].
Qed.

Lemma uploadImage_expired_failure_evicts_witness :
  exists e st',
    uploadImage Demo.rejecting_world Demo.payload (js "a.png") (js "T")
      Demo.stale_state = (Throw e, st')
    /\ uploadedImageCache st'
       = delete (getFileHash Demo.rejecting_world Demo.payload)
           (uploadedImageCache Demo.stale_state)
    /\ uploadedImageCache st' !! getFileHash Demo.rejecting_world Demo.payload = None
    /\ net_log st' = net_log Demo.stale_state
                       ++ [media_request Demo.payload (js "a.png") (js "T")].
Proof.
  apply (uploadImage_expired_failure_evicts Demo.rejecting_world Demo.payload
           (js "a.png") (js "T") Demo.stale_state Demo.stale_entry).
  - vm_compute. reflexivity.
  - vm_compute. discriminate.
  - vm_compute. reflexivity.
Defined.

(* ================================================================== *)
(** ** The regular expressions *)
(* ================================================================== *)

Section RegexFacts.

Lemma special_not_plain c :
  isRegExpSpecial c = false ->
  (c =? backslash) = false /\ isChar "[" c = false.
Proof.
  unfold isRegExpSpecial. rewrite !orb_false_iff. tauto.
Qed.

(** Escaping makes the pattern text read back as the literal text. *)
Lemma parsePattern_escapeRegExp src rest :
  parsePattern None false (escapeRegExp src ++ rest)
    = option_map (app (map Lit src)) (parsePattern None false rest).
Proof.
  induction src as [|c src IH]; simpl.
  - destruct (parsePattern None false rest); reflexivity.
  - destruct (isRegExpSpecial c) eqn:Hs; simpl.
    + replace (backslash =? backslash) with true by reflexivity.
      rewrite Hs, IH. destruct (parsePattern None false rest); reflexivity.
    + destruct (special_not_plain c Hs) as [-> ->]. rewrite Hs, IH.
      destruct (parsePattern None false rest); reflexivity.
Qed.

Lemma parsePattern_srcRegex src :
  parsePattern None false (srcRegex_source src) = Some (srcAtoms src).
Proof.
  unfold srcRegex_source, srcAtoms.
  change (js "src=[" ++ [dq; sq] ++ js "]" ++ escapeRegExp src
            ++ js "[" ++ [dq; sq] ++ js "]")
    with (115 :: 114 :: 99 :: 61 :: 91 :: dq :: sq :: 93
            :: (escapeRegExp src ++ [91; dq; sq; 93])).
  change (map Lit (js "src="))
    with [Lit 115; Lit 114; Lit 99; Lit 61].
  cbn -[escapeRegExp app]. rewrite parsePattern_escapeRegExp.
  cbn. reflexivity.
Qed.








End RegexFacts.

(* ================================================================== *)
(** ** Rewriting the images of a document *)
(* ================================================================== *)

Section RewriteFacts.

Context (W : World) (tok : jsstring) (base : option jsstring).


Lemma uploadImageInternal_frame buf fn st res st1 :
  uploadImageInternal W buf fn tok st = (res, st1) ->
  st1 = log_request (media_request buf fn tok) st.
Proof.
  unfold uploadImageInternal, media_request.
  destruct (https_request W _ _) as [r'| |];
    [destruct (errcode_set r')| |]; intros [= <- <-]; reflexivity.
Qed.

(** An upload neither reads files nor writes to the console. *)
Lemma uploadImage_frame buf fn st res st' :
  uploadImage W buf fn tok st = (res, st') ->
  console_errors st' = console_errors st /\ fs_log st' = fs_log st.
Proof.
  destruct (uploadedImageCache st !! getFileHash W buf) as [c|] eqn:Hc.
  - destruct (Z.lt_ge_cases (Date_now_at W (clock_ticks st) - timestamp c) cacheMaxAge)
      as [Hlive|Hold].
    + rewrite (uploadImage_hit W _ _ _ _ _ Hc Hlive). intros [= <- <-]. auto.
    + rewrite (uploadImage_expired W _ _ _ _ _ Hc Hold). cbv zeta.
      destruct (uploadImageInternal W buf fn tok _) as [[r|e] st0] eqn:E;
        apply uploadImageInternal_frame in E; subst st0;
        intros [= <- <-]; auto.
  - rewrite (uploadImage_miss W _ _ _ _ Hc).
    destruct (uploadImageInternal W buf fn tok _) as [[r|e] st0] eqn:E;
      apply uploadImageInternal_frame in E; subst st0;
      intros [= <- <-]; auto.
Qed.


Lemma readAndUpload_cases p st :
  readAndUpload W tok p st =
    match fs_readFileSync W p with
    | Normal b => uploadImage W b (uploadFilename p) tok (log_read p st)
    | Throw e => (Throw e, log_read p st)
    end.
Proof.
  unfold readAndUpload, bind, readFileSync.
  destruct (fs_readFileSync W p); reflexivity.
Qed.



(** *** One iteration *)

Lemma processImage_no_src attrs vars st :
  srcMatch attrs = None ->
  processImage W tok base attrs vars st = (Normal vars, st).
Proof.
  intros H. unfold processImage. destruct vars. rewrite H. reflexivity.
Qed.

Lemma processImage_skipped attrs src vars st :
  srcMatch attrs = Some src -> isSkipped src = true ->
  processImage W tok base attrs vars st = (Normal vars, st).
Proof.
  intros H Hs. unfold processImage. destruct vars. rewrite H, Hs. reflexivity.
Qed.

Lemma processImage_local attrs src h f st :
  srcMatch attrs = Some src -> isSkipped src = false ->
  processImage W tok base attrs (h, f) st =
    let p := resolveImagePath W base src in
    match readAndUpload W tok p st with
    | (Normal r, st1) =>
        (Normal (String_replace h (srcAtoms src) (srcReplacement r),
                 recordFirst f p), st1)
    | (Throw e, st1) =>
        (Normal (h, recordFirst f p), log_error (uploadFailedLine p e) st1)
    end.
Proof.
  intros H Hs. unfold processImage. rewrite H, Hs. cbv zeta.
  rewrite readAndUpload_cases.
  unfold try_catch, bind, readFileSync.
  destruct (fs_readFileSync W (resolveImagePath W base src)) as [b|e];
    [|reflexivity].
  destruct (uploadImage W b _ tok _) as [[r|e] st1]; [|reflexivity].
  unfold new_RegExp. rewrite parsePattern_srcRegex. reflexivity.
Qed.

(** An iteration never throws. *)
Lemma processImage_total attrs vars st :
  exists vars' st', processImage W tok base attrs vars st = (Normal vars', st').
Proof.
  destruct vars as [h f].
  destruct (srcMatch attrs) as [src|] eqn:H.
  - destruct (isSkipped src) eqn:Hs.
    + rewrite (processImage_skipped _ _ _ _ H Hs). eauto.
    + rewrite (processImage_local _ _ _ _ _ H Hs). cbv zeta.
      destruct (readAndUpload W tok _ st) as [[r|e] st1]; eauto.
  - rewrite (processImage_no_src _ _ _ H). eauto.
Qed.

(** *** The loop *)

Lemma loop_cons attrs rest vars st :
  uploadContentImages_loop W tok base (attrs :: rest) vars st =
    match processImage W tok base attrs vars st with
    | (Normal vars', st') => uploadContentImages_loop W tok base rest vars' st'
    | (Throw e, st') => (Throw e, st')
    end.
Proof. reflexivity. Qed.






End RewriteFacts.





(** A document with one image of each skipped kind around a local one:
    only the local reference changes, one file is read and one request
    is sent. *)
Example uploadContentImages_mixed_images :
  let res := uploadContentImages Demo.vault_world Demo.mixed_images (js "T")
               Demo.note Demo.initial in
  fst res = Normal (Demo.mixed_images_rewritten, Some (js "/vault/a.png"))
  /\ fs_log (snd res) = [js "/vault/a.png"]
  /\ length (net_log (snd res)) = 1%nat
  /\ console_errors (snd res) = [].
Proof. vm_compute. repeat split; reflexivity. Qed.



(** The three-image document, run: the first and the third reference
    point at the platform, the second is as it was, one file could not be
    read and two uploads were sent. *)
Example uploadContentImages_three_images :
  let res := uploadContentImages Demo.vault_world Demo.three_images (js "T")
               Demo.note Demo.initial in
  fst res = Normal (Demo.three_images_rewritten, Some (js "/vault/a.png"))
  /\ fs_log (snd res) = [js "/vault/a.png"; js "/vault/b.png"; js "/vault/c.png"]
  /\ length (net_log (snd res)) = 2%nat
  /\ length (console_errors (snd res)) = 1%nat.
Proof. vm_compute. repeat split; reflexivity. Qed.






(** The substitution made for one image can also land inside the tag of
    another one: here the reference of the first image occurs, in single
    quotes, inside the URL of a second image that is itself skipped. *)
Example uploadContentImages_lands_in_other_tag :
  fst (uploadContentImages Demo.vault_world
         (Demo.img (js "a.png") ++ Demo.img (js "https://e.com/t?src='a.png'"))
         (js "T") Demo.note Demo.initial)
    = Normal
        (Demo.img (js "http://mmbiz.qpic.cn/0/a.png")
           ++ Demo.img (js "https://e.com/t?src="
                          ++ dquoted (js "http://mmbiz.qpic.cn/0/a.png")),
         Some (js "/vault/a.png")).
Proof. vm_compute. reflexivity. Qed.

(** The reference is found whatever the case of the attribute name, but
    substituted only where it is written in lower case. *)
Example uploadContentImages_upper_case_attribute :
  let html := js "<IMG SRC=" ++ dquoted (js "a.png") ++ js ">" in
  let res := uploadContentImages Demo.vault_world html (js "T") Demo.note
               Demo.initial in
  fst res = Normal (html, Some (js "/vault/a.png"))
  /\ length (net_log (snd res)) = 1%nat.
Proof. vm_compute. split; reflexivity. Qed.

(* ================================================================== *)
(** ** Submitting the draft *)
(* ================================================================== *)

(** C5, as the program has it.  When the draft endpoint answers with a
    non-zero [errcode], [publishArticle] throws a plain [Error] whose
    message is the fixed prefix followed by that code, a dash and that
    [errmsg]; the request has been sent and no answer is returned. *)
Theorem publishArticle_rejected (W : World)
    (title content : jsstring) (thumb : option jsstring)
    (tok : jsstring) (author digest : option jsstring)
    (st : State) (data : WechatJson) (code : Z) :
  requestUrl_json W (length (net_log st))
    (draft_request title content thumb tok author digest) = Normal data ->
  errcode data = Some code -> code <> 0%Z ->
  publishArticle W title content thumb tok author digest st
    = (Throw (Error (js "发布文章失败: " ++ numToStr code ++ js " - "
                       ++ toStr (errmsg data))),
       log_request (draft_request title content thumb tok author digest) st).
Proof.
  intros Hreply Hcode Hnz.
  unfold publishArticle, bind, request, draft_request in *.
  rewrite Hreply. unfold errcode_set, code_and_message. rewrite Hcode.
  destruct (Z.eqb_spec code 0); [contradiction|]. reflexivity.
Qed.

Lemma publishArticle_rejected_witness :
  publishArticle Demo.refusing_world (js "Title") (js "<p>text</p>")
    (Some (js "MEDIA_0")) (js "T") None None Demo.initial
    = (Throw (Error (js "发布文章失败: " ++ numToStr 45009 ++ js " - "
                       ++ toStr (errmsg (Demo.error_reply 45009
                                  (js "reach max api daily quota limit"))))),
       log_request (draft_request (js "Title") (js "<p>text</p>")
                      (Some (js "MEDIA_0")) (js "T") None None) Demo.initial).
Proof.
  apply (publishArticle_rejected Demo.refusing_world (js "Title")
           (js "<p>text</p>") (Some (js "MEDIA_0")) (js "T") None None Demo.initial
           (Demo.error_reply 45009 (js "reach max api daily quota limit"))
           45009).
  - reflexivity.
  - reflexivity.
  - discriminate.
Defined.

(** Without an error code, or with the code 0, the answer is returned. *)
Lemma publishArticle_accepted (W : World)
    (title content : jsstring) (thumb : option jsstring)
    (tok : jsstring) (author digest : option jsstring)
    (st : State) (data : WechatJson) :
  requestUrl_json W (length (net_log st))
    (draft_request title content thumb tok author digest) = Normal data ->
  errcode data = None \/ errcode data = Some 0%Z ->
  publishArticle W title content thumb tok author digest st
    = (Normal data,
       log_request (draft_request title content thumb tok author digest) st).
Proof.
  intros Hreply Hcode.
  unfold publishArticle, bind, request, draft_request in *.
  rewrite Hreply. unfold errcode_set.
  destruct Hcode as [->| ->]; reflexivity.
Qed.

(** C5, as the claim states it (a typed SubmitError, never a generic
    failure), fails: the value thrown is an instance of the base [Error]
    class, the same class [getAccessToken] throws, and carries the code and
    the message only inside its text. *)
Lemma publishArticle_generic_error_counterexample :
  exists e e',
    fst (publishArticle Demo.refusing_world (js "Title") (js "<p>text</p>")
           (Some (js "MEDIA_0")) (js "T") None None Demo.initial) = Throw e
    /\ genericFailure e
    /\ err_message e
       = js "发布文章失败: 45009 - reach max api daily quota limit"
    /\ fst (getAccessToken Demo.refusing_world (js "APP") (js "SECRET")
              Demo.initial) = Throw e'
    /\ err_name e' = err_name e.
Proof.
  eexists. eexists. vm_compute. repeat split; reflexivity.
Qed.

(* ================================================================== *)
(** ** Choosing the cover *)
(* ================================================================== *)

Section CoverFacts.

Context (W : World).

Lemma firstSatisfied_cons {A : Type} (c : option A) (l : list (option A)) :
  firstSatisfied (c :: l)
    = match c with Some x => Some x | None => firstSatisfied l end.
Proof. reflexivity. Qed.

Lemma coverFromDefaults_firstSatisfied paths cover st :
  fst (coverFromDefaults W paths cover st)
    = Normal
        match firstSatisfied
                (map (fun p => if fs_existsSync W p
                               then readCandidate W p (js "default-cover.jpg")
                               else None) paths) with
        | Some (b, n) => (Some b, n)
        | None => cover
        end.
Proof.
  revert st. induction paths as [|p paths IH]; intros st; [reflexivity|].
  cbn [coverFromDefaults map]. rewrite firstSatisfied_cons.
  destruct (fs_existsSync W p); [|apply IH].
  unfold bind, try_catch, readFileSync, readCandidate, console_error, ret.
  destruct (fs_readFileSync W p) as [b|e]; [reflexivity|apply IH].
Qed.

Lemma coverFromFirstImage_candidate buf name first st :
  fst (coverFromFirstImage W (buf, name) first st)
    = Normal
        match buf with
        | Some _ => (buf, name)
        | None =>
            match (if truthy first
                   then readCandidate W (toStr first) (js "cover.jpg")
                   else None) with
            | Some (b, n) => (Some b, n)
            | None => (None, name)
            end
        end.
Proof.
  unfold coverFromFirstImage. destruct buf as [b|]; [reflexivity|]. simpl.
  destruct (truthy first); [|reflexivity].
  unfold bind, try_catch, readFileSync, readCandidate, console_error, ret.
  destruct (fs_readFileSync W (toStr first)); reflexivity.
Qed.

End CoverFacts.



(** Each earlier candidate, when present, wins over the later ones. *)
Example resolveCover_order :
  let W := Demo.world (Demo.ticking 0 1)
             [(js "/vault/a.png", Demo.file_bytes Byte.x41);
              (js "/vault/covers/missing.jpg", Demo.file_bytes Byte.x44);
              (js "/plugin/assets/default-cover.jpg", Demo.file_bytes Byte.x4a);
              (js "/plugin/assets/default-cover.png", Demo.file_bytes Byte.x50)]
             Demo.https_ok Demo.requestUrl_ok in
  fst (resolveCover W (Some (Demo.file_bytes Byte.x45)) (Some (js "e.png"))
         (Some (js "/vault/a.png")) Demo.bundled_options Demo.initial)
    = Normal (Demo.file_bytes Byte.x45, Some (js "e.png"))
  /\ fst (resolveCover W None None (Some (js "/vault/a.png"))
            Demo.bundled_options Demo.initial)
     = Normal (Demo.file_bytes Byte.x41, Some (js "a.png"))
  /\ fst (resolveCover W None None None Demo.bundled_options Demo.initial)
     = Normal (Demo.file_bytes Byte.x44, Some (js "missing.jpg"))
  /\ fst (resolveCover Demo.vault_world None None None Demo.bundled_options
            Demo.initial)
     = Throw (Error missingCoverMessage).
Proof. vm_compute. repeat split; reflexivity. Qed.

(* ================================================================== *)
(** ** Wiki images in the markdown *)
(* ================================================================== *)

Section RendererFacts.

Import Renderer.

Lemma span_until p content x rest :
  Forall (fun c => p c = true) content -> p x = false ->
  span p (content ++ x :: rest) = (content, x :: rest).
Proof.
  intros H Hx. induction H as [|c l Hc _ IH]; simpl.
  - rewrite Hx. reflexivity.
  - rewrite Hc, IH. reflexivity.
Qed.

Lemma match_wikiImage_link content rest :
  content <> [] -> Forall (fun c => isChar "]" c = false) content ->
  match_wikiImage (js "![[" ++ content ++ js "]]" ++ rest) = Some content.
Proof.
  intros Hne Hb.
  change (js "![[" ++ content ++ js "]]" ++ rest)
    with (33 :: 91 :: 91 :: content ++ 93 :: 93 :: rest).
  cbn [match_wikiImage].
  change (isChar "!" 33 && isChar "[" 91 && isChar "[" 91) with true. cbv iota.
  rewrite (span_until (fun c => negb (isChar "]" c)) content 93 (93 :: rest)).
  - destruct content; [contradiction|reflexivity].
  - eapply Forall_impl; [exact Hb|]. intros c ->. reflexivity.
  - reflexivity.
Qed.

Lemma convertObsidianImages_from_skip pre rest :
  convertObsidianImages_from (length pre) (pre ++ rest)
    = convertObsidianImages_from 0 rest.
Proof.
  induction pre as [|c pre IH]; simpl; [destruct rest; reflexivity|exact IH].
Qed.

Lemma convertObsidianImages_from_plain pre s :
  Forall (fun c => isChar "!" c = false) pre ->
  convertObsidianImages_from 0 (pre ++ s)
    = match convertObsidianImages_from 0 s with
      | Normal r => Normal (pre ++ r)
      | Throw e => Throw e
      end.
Proof.
  induction 1 as [|c pre Hc _ IH]; simpl app.
  - destruct (convertObsidianImages_from 0 s); reflexivity.
  - cbn [convertObsidianImages_from].
    assert (Hm : match_wikiImage (c :: pre ++ s) = None).
    { unfold match_wikiImage. destruct (pre ++ s) as [|c2 [|c3 l]]; try reflexivity.
      rewrite Hc. reflexivity. }
    rewrite Hm, IH. destruct (convertObsidianImages_from 0 s); reflexivity.
Qed.

Lemma outside_class_unreserved c :
  inPathClass c = false ->
  isChar ":" c = false /\ isUriUnreserved c = isUriMark c.
Proof.
  unfold inPathClass, isUriUnreserved. rewrite !orb_false_iff.
  intros ((((((((-> & ->) & ->) & ->) & _) & _) & ->) & ->) & ->).
  split; reflexivity.
Qed.

Lemma not_surrogate c :
  isSurrogate c = false -> isLowSurrogate c = false /\ isHighSurrogate c = false.
Proof.
  unfold isSurrogate, isLowSurrogate, isHighSurrogate.
  rewrite !andb_false_iff, !N.leb_gt. lia.
Qed.

(** Outside the surrogates, the encoding replace and its callback compute
    [percentEncodePath]; the drive-letter branch of the callback is never
    reached, since the colon belongs to the class. *)
Lemma encodePath_from_percentEncodePath imagePath s :
  Forall (fun c => isSurrogate c = false) s ->
  encodePath_from imagePath s = Normal (percentEncodePath s).
Proof.
  induction 1 as [|c s Hc _ IH]; [reflexivity|].
  cbn [encodePath_from]. unfold percentEncodePath in *. cbn [flat_map].
  rewrite IH. destruct (inPathClass c) eqn:Hcls; [reflexivity|].
  destruct (outside_class_unreserved c Hcls) as [Hcolon Hunres].
  destruct (not_surrogate c Hc) as [Hlow Hhigh].
  unfold encodeChar. rewrite Hcolon. cbn [andb encodeURIComponent].
  rewrite Hunres, Hlow, Hhigh. cbn [orb].
  destruct (isUriMark c); [reflexivity|]. rewrite app_nil_r. reflexivity.
Qed.

(** The resolution of one reference. *)
Lemma convertOne_resolves content :
  Forall (fun c => isSurrogate c = false) (trim (beforePipe content)) ->
  convertOne content
    = Normal (js "![](" ++ percentEncodePath (trim (beforePipe content))
                ++ js ")").
Proof.
  intros Hs. unfold convertOne.
  rewrite (encodePath_from_percentEncodePath _ _ Hs). reflexivity.
Qed.

Lemma span_spec p s :
  s = fst (span p s) ++ snd (span p s)
  /\ Forall (fun c => p c = true) (fst (span p s))
  /\ match snd (span p s) with
     | [] => True
     | x :: _ => p x = false
     end.
Proof.
  induction s as [|c s (IH1 & IH2 & IH3)]; simpl; [auto|].
  destruct (p c) eqn:Hc.
  - destruct (span p s) as [a b]. simpl in *. subst. auto.
  - simpl. auto.
Qed.

(** What a match of the wiki-image pattern looks like. *)
Lemma match_wikiImage_inv s content :
  match_wikiImage s = Some content ->
  exists rest,
    s = js "![[" ++ content ++ js "]]" ++ rest
    /\ content <> []
    /\ Forall (fun c => isChar "]" c = false) content.
Proof.
  unfold match_wikiImage.
  destruct s as [|c1 [|c2 [|c3 t]]]; try discriminate.
  destruct (isChar "!" c1) eqn:H1; [|discriminate].
  destruct (isChar "[" c2) eqn:H2; [|discriminate].
  destruct (isChar "[" c3) eqn:H3; [|discriminate]. cbn [andb].
  destruct (span_spec (fun c => negb (isChar "]" c)) t) as (Ht & Hall & _).
  destruct (span (fun c => negb (isChar "]" c)) t) as [a b]. simpl in *.
  destruct a as [|x a]; [discriminate|].
  destruct b as [|r1 [|r2 rest]]; try discriminate.
  destruct (isChar "]" r1) eqn:R1; [|discriminate].
  destruct (isChar "]" r2) eqn:R2; [|discriminate]. cbn [andb].
  intros [= <-]. exists rest.
  apply N.eqb_eq in H1, H2, H3, R1, R2. subst c1 c2 c3 r1 r2 t.
  split; [reflexivity|]. split; [discriminate|].
  eapply Forall_impl; [exact Hall|]. intros c Hc. cbv beta in Hc.
  apply negb_true_iff in Hc. exact Hc.
Qed.

Lemma Forall_trimStart (P : N -> Prop) s :
  Forall P s -> Forall P (trimStart s).
Proof.
  induction 1 as [|c s Hc Hs IH]; simpl; [constructor|].
  destruct (isWhiteSpace c); [exact IH|constructor; assumption].
Qed.

Lemma Forall_path (P : N -> Prop) content :
  Forall P content -> Forall P (trim (beforePipe content)).
Proof.
  intros H. unfold trim, beforePipe.
  apply Forall_rev, Forall_trimStart, Forall_rev, Forall_trimStart.
  destruct (span_spec (fun c => negb (isChar "|" c)) content) as (E & _ & _).
  rewrite E in H. apply Forall_app in H. tauto.
Qed.

(** In a document without surrogate code units every wiki image the scan
    finds is resolved by the rule, and nothing else changes. *)
Lemma convertObsidianImages_Converted markdown :
  Forall (fun c => isSurrogate c = false) markdown ->
  exists out, convertObsidianImages markdown = Normal out
              /\ Converted markdown out.
Proof.
  unfold convertObsidianImages.
  remember (length markdown) as n eqn:Hn.
  assert (Hle : (length markdown <= n)%nat) by lia. clear Hn.
  revert markdown Hle. induction n as [|n IH]; intros s Hle Hs.
  - destruct s; [|simpl in Hle; lia]. exists []. split; constructor.
  - destruct s as [|c t]; [exists []; split; constructor|].
    cbn [convertObsidianImages_from].
    destruct (match_wikiImage (c :: t)) as [content|] eqn:Hm.
    + destruct (match_wikiImage_inv _ _ Hm) as (rest & E & Hne & Hb).
      assert (Hparts : Forall (fun c => isSurrogate c = false) content
                       /\ Forall (fun c => isSurrogate c = false) rest).
      { rewrite E in Hs.
        apply Forall_app in Hs as [_ Hs].
        apply Forall_app in Hs as [Hc Hs].
        apply Forall_app in Hs as [_ Hs]. auto. }
      destruct Hparts as [Hc Hrest].
      rewrite (convertOne_resolves _ (Forall_path _ _ Hc)).
      change (js "![[" ++ content ++ js "]]" ++ rest)
        with (33 :: ([91; 91] ++ content ++ [93; 93] ++ rest)) in E.
      injection E as -> ->.
      replace (91 :: 91 :: content ++ 93 :: 93 :: rest)
        with (([91; 91] ++ content ++ [93; 93]) ++ rest)
        by (simpl; rewrite <- app_assoc; reflexivity).
      replace (4 + length content)%nat
        with (length ([91; 91] ++ content ++ [93; 93]))
        by (rewrite !length_app; simpl; lia).
      rewrite convertObsidianImages_from_skip.
      destruct (IH rest) as (out & -> & Hout); [|exact Hrest|].
      { simpl in Hle. rewrite !length_app in Hle. simpl in Hle. lia. }
      eexists. split; [reflexivity|].
      rewrite <- !app_assoc.
      apply (Converted_link content rest out Hne Hb Hout).
    + destruct (IH t) as (out & -> & Hout).
      { simpl in Hle. lia. }
      { inversion Hs; assumption. }
      exists (c :: out). split; [reflexivity|].
      constructor; assumption.
Qed.

End RendererFacts.

(** C6, as the program has it.  A wiki image [![[content]]], after text
    without exclamation marks, is replaced by [![](path)], where [path] is
    [content] up to its first vertical bar, trimmed, with every character
    percent-encoded (UTF-8) except those of the class (letters, digits,
    colon, slash, backslash, hyphen, underscore, dot) and the marks
    [encodeURIComponent] keeps (exclamation mark, tilde, asterisk,
    apostrophe, parentheses).  Every colon stays, a drive letter's
    included.  Stated for paths without surrogate code units. *)
Theorem convertObsidianImages_resolves (pre content rest : jsstring) :
  Forall (fun c => isChar "!" c = false) pre ->
  content <> [] ->
  Forall (fun c => isChar "]" c = false) content ->
  Forall (fun c => Renderer.isSurrogate c = false)
    (Renderer.trim (Renderer.beforePipe content)) ->
  Renderer.convertObsidianImages
    (pre ++ js "![[" ++ content ++ js "]]" ++ rest)
    = match Renderer.convertObsidianImages rest with
      | Normal r =>
          Normal (pre ++ js "![]("
                    ++ Renderer.percentEncodePath
                         (Renderer.trim (Renderer.beforePipe content))
                    ++ js ")" ++ r)
      | Throw e => Throw e
      end.
Proof.
  intros Hpre Hne Hb Hs. unfold Renderer.convertObsidianImages.
  rewrite (convertObsidianImages_from_plain _ _ Hpre).
  pose proof (match_wikiImage_link content rest Hne Hb) as Hm.
  change (js "![[" ++ content ++ js "]]" ++ rest)
    with (33 :: ([91; 91] ++ content ++ [93; 93] ++ rest)) in *.
  cbn [Renderer.convertObsidianImages_from]. rewrite Hm.
  rewrite (convertOne_resolves _ Hs).
  replace ([91; 91] ++ content ++ [93; 93] ++ rest)
    with (([91; 91] ++ content ++ [93; 93]) ++ rest)
    by (rewrite <- !app_assoc; reflexivity).
  replace (4 + length content)%nat
    with (length ([91; 91] ++ content ++ [93; 93]))
    by (rewrite !length_app; simpl; lia).
  rewrite convertObsidianImages_from_skip.
  destruct (Renderer.convertObsidianImages_from 0 rest); [|reflexivity].
  rewrite <- !app_assoc. reflexivity.
Qed.

Lemma convertObsidianImages_resolves_witness :
  Renderer.convertObsidianImages
    (js "See " ++ js "![[" ++ js "Pasted image 2026.png" ++ js "]]" ++ [])
    = Normal (js "See ![](Pasted%20image%202026.png)").
Proof.
  rewrite (convertObsidianImages_resolves (js "See ")
             (js "Pasted image 2026.png") []).
  - vm_compute. reflexivity.
  - vm_compute. repeat (constructor; [reflexivity|]). constructor.
  - discriminate.
  - vm_compute. repeat (constructor; [reflexivity|]). constructor.
  - vm_compute. repeat (constructor; [reflexivity|]). constructor.
Defined.

(** C6, as the claim states it (every character outside the class is
    percent-encoded), fails on the marks [encodeURIComponent] keeps: the
    parentheses of a file name come out as they went in. *)
Lemma convertObsidianImages_marks_counterexample :
  Renderer.convertObsidianImages (js "![[a(1).png]]")
    = Normal (js "![](a(1).png)")
  /\ Renderer.specEncodePath (js "a(1).png") = js "a%281%29.png"
  /\ Renderer.convertObsidianImages (js "![[a(1).png]]")
     <> Normal (js "![](" ++ Renderer.specEncodePath (js "a(1).png") ++ js ")").
Proof. vm_compute. repeat split; try reflexivity. discriminate. Qed.

(** The examples of the source's own comment, with an alternative text, a
    drive letter and non-ASCII letters. *)
Example convertObsidianImages_examples :
  Renderer.convertObsidianImages (js "![[path.jpg]]")
    = Normal (js "![](path.jpg)")
  /\ Renderer.convertObsidianImages (js "![[ folder/path.jpg | alt text ]]")
     = Normal (js "![](folder/path.jpg)")
  /\ Renderer.convertObsidianImages (js "![[Pasted image 20260202215021.png]]")
     = Normal (js "![](Pasted%20image%2020260202215021.png)")
  /\ Renderer.convertObsidianImages (js "![[K:/图 1.png]] and ![[b#c.png]]")
     = Normal (js "![](K:/%E5%9B%BE%201.png) and ![](b%23c.png)").
Proof. vm_compute. repeat split; reflexivity. Qed.

(** A character outside the Basic Multilingual Plane reaches the callback
    one surrogate at a time, and [encodeURIComponent] throws on it. *)
Example convertObsidianImages_astral :
  Renderer.convertObsidianImages (js "![[😀.png]]")
    = Throw (URIError (js "URI malformed")).
Proof. vm_compute. reflexivity. Qed.

(* ================================================================== *)
(** ** Checking a property of every code unit by computation *)
(* ================================================================== *)

Lemma Forall_true_forallb (f : N -> bool) (l : jsstring) :
  forallb f l = true -> Forall (fun c => f c = true) l.
Proof.
  induction l as [|c l IH]; [constructor|]. simpl.
  intros H. apply andb_true_iff in H as [Hc Hl]. constructor; auto.
Qed.

Lemma Forall_false_forallb (f : N -> bool) (l : jsstring) :
  forallb (fun c => negb (f c)) l = true -> Forall (fun c => f c = false) l.
Proof.
  induction l as [|c l IH]; [constructor|]. simpl.
  intros H. apply andb_true_iff in H as [Hc Hl].
  constructor; [apply negb_true_iff, Hc|auto].
Qed.

Lemma Forall_lt_forallb (n : N) (l : jsstring) :
  forallb (fun c => c <? n) l = true -> Forall (fun c => c < n) l.
Proof.
  induction l as [|c l IH]; [constructor|]. simpl.
  intros H. apply andb_true_iff in H as [Hc Hl].
  constructor; [apply N.ltb_lt, Hc|auto].
Qed.

(* ================================================================== *)
(** ** wechat.ts: what a call touches *)
(* ================================================================== *)

Section UploadEffects.

Context (W : World).

(** The three ways a call to [uploadImage] can go, by the state of the
    cache entry of the payload. *)
Lemma uploadImage_live buf fn tok st :
  liveEntry W st buf = true ->
  exists c, uploadedImageCache st !! getFileHash W buf = Some c
            /\ uploadImage W buf fn tok st = (Normal (cached_result c), tick st).
Proof.
  unfold liveEntry.
  destruct (uploadedImageCache st !! getFileHash W buf) as [c|] eqn:Hc;
    [|discriminate].
  intros H. apply Z.ltb_lt in H. exists c. split; [reflexivity|].
  apply uploadImage_hit; assumption.
Qed.

Lemma uploadImage_not_live buf fn tok st :
  liveEntry W st buf = false ->
  exists st0,
    uploadedImageCache st0 = delete (getFileHash W buf) (uploadedImageCache st)
    /\ net_log st0 = net_log st /\ fs_log st0 = fs_log st
    /\ console_errors st0 = console_errors st
    /\ uploadImage W buf fn tok st =
         match uploadImageInternal W buf fn tok st0 with
         | (Normal result, st1) =>
             (Normal result,
              set_cache (insert (getFileHash W buf)
                           {| cached_url := url result;
                              cached_media_id := media_id result;
                              timestamp := Date_now_at W (clock_ticks st1) |})
                (tick st1))
         | (Throw e, st1) => (Throw e, st1)
         end.
Proof.
  unfold liveEntry.
  destruct (uploadedImageCache st !! getFileHash W buf) as [c|] eqn:Hc.
  - intros H. apply Z.ltb_ge in H.
    exists (set_cache (delete (getFileHash W buf)) (tick st)).
    rewrite (uploadImage_expired W _ _ _ _ _ Hc H). simpl. auto 10.
  - intros _. exists st. rewrite (uploadImage_miss W _ _ _ _ Hc).
    rewrite delete_id by exact Hc. auto 10.
Qed.

(** The cache after a call, as a function of the cache before. *)
Lemma uploadImage_cache_shape buf fn tok st :
  let h := getFileHash W buf in
  let cache := uploadedImageCache st in
  let cache' := uploadedImageCache (snd (uploadImage W buf fn tok st)) in
  cache' = cache \/ cache' = delete h cache
  \/ exists e, cache' = <[h := e]> cache.
Proof.
  cbv zeta. destruct (liveEntry W st buf) eqn:L.
  - destruct (uploadImage_live buf fn tok st L) as (c & _ & ->). left. reflexivity.
  - destruct (uploadImage_not_live buf fn tok st L) as (st0 & Hc & _ & _ & _ & ->).
    destruct (uploadImageInternal W buf fn tok st0) as [[r|e] st1] eqn:E;
      apply uploadImageInternal_frame in E; subst st1; simpl.
    + right. right. eexists. rewrite Hc. apply insert_delete_eq.
    + right. left. exact Hc.
Qed.

Lemma uploadImage_net buf fn tok st :
  net_log (snd (uploadImage W buf fn tok st))
  = if liveEntry W st buf then net_log st
    else net_log st ++ [media_request buf fn tok].
Proof.
  destruct (liveEntry W st buf) eqn:L.
  - destruct (uploadImage_live buf fn tok st L) as (c & _ & ->). reflexivity.
  - destruct (uploadImage_not_live buf fn tok st L) as (st0 & _ & Hn & _ & _ & ->).
    destruct (uploadImageInternal W buf fn tok st0) as [[r|e] st1] eqn:E;
      apply uploadImageInternal_frame in E; subst st1; simpl;
      rewrite Hn; reflexivity.
Qed.

End UploadEffects.

(** X1.  A call to [uploadImage] changes no cache entry but the one of
    the digest of the bytes it is given: every other key maps to what it
    mapped to before, whether the call answers from the cache, uploads,
    or fails. *)
Theorem uploadImage_touches_own_entry (W : World) (buf : bytes)
    (fn tok : jsstring) (st : State) (k : jsstring) :
  k <> getFileHash W buf ->
  uploadedImageCache (snd (uploadImage W buf fn tok st)) !! k
  = uploadedImageCache st !! k.
Proof.
  intros Hk.
  destruct (uploadImage_cache_shape W buf fn tok st) as [->|[->|[e ->]]].
  - reflexivity.
  - apply lookup_delete_ne. congruence.
  - apply lookup_insert_ne. congruence.
Qed.

Lemma uploadImage_touches_own_entry_witness :
  uploadedImageCache
    (snd (uploadImage Demo.late_world (Demo.file_bytes Byte.x43)
            (js "c.png") (js "T") Demo.stale_state))
    !! Demo.digest Demo.payload
  = Some Demo.stale_entry.
Proof.
  rewrite (uploadImage_touches_own_entry Demo.late_world
             (Demo.file_bytes Byte.x43) (js "c.png") (js "T")
             Demo.stale_state (Demo.digest Demo.payload)).
  - vm_compute. reflexivity.
  - vm_compute. discriminate.
Defined.

(** X2.  A call to [uploadImage] sends a request exactly when the cache
    holds no live entry for the bytes, and then exactly one, the media
    upload with the file name and token of the call; no call reads a file
    or writes to the console. *)
Theorem uploadImage_requests (W : World) (buf : bytes)
    (fn tok : jsstring) (st : State) :
  let st' := snd (uploadImage W buf fn tok st) in
  net_log st' = (if liveEntry W st buf then net_log st
                 else net_log st ++ [media_request buf fn tok])
  /\ fs_log st' = fs_log st
  /\ console_errors st' = console_errors st.
Proof.
  cbv zeta. split; [apply uploadImage_net|].
  destruct (uploadImage W buf fn tok st) as [res st'] eqn:E.
  apply uploadImage_frame in E as [Hc Hf]. simpl. auto.
Qed.

(* ================================================================== *)
(** ** wechat.ts: the rewriting loop, step by step *)
(* ================================================================== *)

Section LoopEffects.

Context (W : World) (tok : jsstring) (base : option jsstring).

(** A relation between the states before and after that holds across
    reads, console lines and uploads holds across an iteration, and across
    the loop. *)
Section Preserved.

Context (R : State -> State -> Prop).
Hypothesis R_refl : forall st, R st st.
Hypothesis R_trans : forall a b c, R a b -> R b c -> R a c.
Hypothesis R_read : forall p st, R st (log_read p st).
Hypothesis R_error : forall l st, R st (log_error l st).
Hypothesis R_upload : forall buf fn st,
  R st (snd (uploadImage W buf fn tok st)).

Lemma readAndUpload_preserves p st : R st (snd (readAndUpload W tok p st)).
Proof.
  rewrite readAndUpload_cases. destruct (fs_readFileSync W p) as [b|e].
  - eapply R_trans; [apply R_read|apply R_upload].
  - apply R_read.
Qed.

Lemma processImage_preserves attrs vars st :
  R st (snd (processImage W tok base attrs vars st)).
Proof.
  destruct vars as [h f].
  destruct (srcMatch attrs) as [src|] eqn:H.
  - destruct (isSkipped src) eqn:Hs.
    + rewrite (processImage_skipped _ _ _ _ _ _ _ H Hs). apply R_refl.
    + rewrite (processImage_local _ _ _ _ _ _ _ _ H Hs). cbv zeta.
      pose proof (readAndUpload_preserves (resolveImagePath W base src) st) as HR.
      destruct (readAndUpload W tok _ st) as [[r|e] st1]; simpl in *.
      * exact HR.
      * eapply R_trans; [exact HR|apply R_error].
  - rewrite (processImage_no_src _ _ _ _ _ _ H). apply R_refl.
Qed.

Lemma loop_preserves matches vars st :
  R st (snd (uploadContentImages_loop W tok base matches vars st)).
Proof.
  revert vars st. induction matches as [|a l IH]; intros vars st.
  - apply R_refl.
  - rewrite loop_cons.
    pose proof (processImage_preserves a vars st) as HR.
    destruct (processImage_total W tok base a vars st) as (v & st1 & E).
    rewrite E in *. simpl in HR. eapply R_trans; [exact HR|apply IH].
Qed.

End Preserved.

(** What an iteration returns and reads. *)
Lemma processImage_reads attrs h f st :
  exists h' st',
    processImage W tok base attrs (h, f) st
      = (Normal (h', fold_left recordFirst (localImagePath W base attrs) f), st')
    /\ fs_log st' = fs_log st ++ localImagePath W base attrs.
Proof.
  unfold localImagePath.
  destruct (srcMatch attrs) as [src|] eqn:H.
  - destruct (isSkipped src) eqn:Hs.
    + rewrite (processImage_skipped _ _ _ _ _ _ _ H Hs).
      exists h, st. rewrite app_nil_r. auto.
    + rewrite (processImage_local _ _ _ _ _ _ _ _ H Hs). cbv zeta.
      rewrite readAndUpload_cases.
      destruct (fs_readFileSync W (resolveImagePath W base src)) as [b|e].
      * destruct (uploadImage W b _ tok _) as [[r|e] st1] eqn:E;
          apply uploadImage_frame in E as [_ E]; simpl in E;
          eexists; eexists; (split; [reflexivity|]); simpl; exact E.
      * eexists; eexists; (split; [reflexivity|]). reflexivity.
  - rewrite (processImage_no_src _ _ _ _ _ _ H).
    exists h, st. rewrite app_nil_r. auto.
Qed.

Lemma loop_reads matches : forall h f st,
  exists h' st',
    uploadContentImages_loop W tok base matches (h, f) st
      = (Normal (h', fold_left recordFirst
                       (flat_map (localImagePath W base) matches) f), st')
    /\ fs_log st' = fs_log st ++ flat_map (localImagePath W base) matches.
Proof.
  induction matches as [|a l IH]; intros h f st.
  - exists h, st. simpl. rewrite app_nil_r. auto.
  - rewrite loop_cons.
    destruct (processImage_reads a h f st) as (h1 & st1 & -> & E1).
    destruct (IH h1 (fold_left recordFirst (localImagePath W base a) f) st1)
      as (h' & st' & -> & E).
    exists h', st'. simpl flat_map. rewrite fold_left_app.
    split; [reflexivity|]. rewrite E, E1, app_assoc. reflexivity.
Qed.

Lemma recordFirst_kept p l :
  p <> [] -> fold_left recordFirst l (Some p) = Some p.
Proof.
  intros Hp. induction l as [|q l IH]; [reflexivity|].
  simpl. unfold recordFirst at 2. destruct p; [congruence|]. exact IH.
Qed.

End LoopEffects.

(** X3.  [uploadContentImages] reads exactly the files of the references
    it does not skip, each once per reference, in document order, at the
    paths they resolve to; this holds whether the reads and uploads
    succeed or fail. *)
Theorem uploadContentImages_reads (W : World) (html tok : jsstring)
    (base : option jsstring) (st : State) :
  fs_log (snd (uploadContentImages W html tok base st))
  = fs_log st ++ localImagePaths W base html.
Proof.
  unfold uploadContentImages, localImagePaths.
  destruct (loop_reads W tok base (imgRegex_exec 0 html) html None st)
    as (h' & st' & -> & E). exact E.
Qed.

(** X4.  [uploadContentImages] always returns: it gives no first local
    image for a document without local references, and otherwise the
    resolved path of the first reference it did not skip, whether or not
    that file could be read or uploaded. *)
Theorem uploadContentImages_first_local_image (W : World)
    (html tok : jsstring) (base : option jsstring) (st : State) :
  exists h' first st',
    uploadContentImages W html tok base st = (Normal (h', first), st')
    /\ (localImagePaths W base html = [] -> first = None)
    /\ (forall p rest, localImagePaths W base html = p :: rest ->
                       p <> [] -> first = Some p).
Proof.
  unfold uploadContentImages, localImagePaths.
  destruct (loop_reads W tok base (imgRegex_exec 0 html) html None st)
    as (h' & st' & -> & _).
  eexists; eexists; eexists. split; [reflexivity|]. split.
  - intros ->. reflexivity.
  - intros p rest -> Hp. simpl. apply recordFirst_kept, Hp.
Qed.

(* ================================================================== *)
(** ** wechat.ts: the publishing sequence *)
(* ================================================================== *)

Section PublishFacts.

Context (W : World).

Lemma getAccessToken_cases a s st :
  getAccessToken W a s st =
    (match requestUrl_json W (length (net_log st)) (token_request a s) with
     | Normal data =>
         if errcode_set data
         then Throw (Error (js "获取 Access Token 失败: "
                              ++ code_and_message data))
         else Normal data
     | Throw e => Throw e
     end, log_request (token_request a s) st).
Proof.
  unfold getAccessToken, httpGet, request, bind, token_request.
  destruct (requestUrl_json W _ _) as [d|e]; [|reflexivity].
  destruct (errcode_set d); reflexivity.
Qed.

(** The five steps of [publishToWechat], each one running only if the
    ones before it returned. *)
Lemma publishToWechat_steps title html cb cf o author digest st :
  publishToWechat W title html cb cf o author digest st =
    match getAccessToken W (appId o) (appSecret o) st with
    | (Normal token, st1) =>
        let tok := toStr (access_token token) in
        match uploadContentImages W html tok (basePath o) st1 with
        | (Normal (h', first), st2) =>
            match resolveCover W cb cf first o st2 with
            | (Normal (b, fn), st3) =>
                match uploadImage W b (coverUploadName fn) tok st3 with
                | (Normal up, st4) =>
                    publishArticle W title h' (media_id up) tok author digest st4
                | (Throw e, st4) => (Throw e, st4)
                end
            | (Throw e, st3) => (Throw e, st3)
            end
        | (Throw e, st2) => (Throw e, st2)
        end
    | (Throw e, st1) => (Throw e, st1)
    end.
Proof.
  unfold publishToWechat, bind.
  destruct (getAccessToken W _ _ st) as [[t|e] st1]; [|reflexivity]. cbv zeta.
  destruct (uploadContentImages W _ _ _ st1) as [[[h f]|e] st2]; [|reflexivity].
  destruct (resolveCover W _ _ _ _ st2) as [[[b fn]|e] st3]; [|reflexivity].
  reflexivity.
Qed.

(** *** Choosing the cover sends nothing *)

Lemma quiet_refl st : quiet st st.
Proof. repeat split. Qed.

Lemma quiet_trans a b c : quiet a b -> quiet b c -> quiet a c.
Proof.
  intros (H1 & H2 & H3) (H4 & H5 & H6). repeat split; congruence.
Qed.

Lemma coverFromFirstImage_quiet cover first st :
  quiet st (snd (coverFromFirstImage W cover first st)).
Proof.
  unfold coverFromFirstImage. destruct (fst cover); [apply quiet_refl|].
  destruct (truthy first); [|apply quiet_refl].
  unfold bind, try_catch, readFileSync, console_error, ret.
  destruct (fs_readFileSync W (toStr first)); repeat split.
Qed.

Lemma coverFromDefaults_quiet paths cover st :
  quiet st (snd (coverFromDefaults W paths cover st)).
Proof.
  revert st. induction paths as [|p paths IH]; intros st; [apply quiet_refl|].
  cbn [coverFromDefaults]. destruct (fs_existsSync W p); [|apply IH].
  unfold bind, try_catch, readFileSync, console_error, ret.
  destruct (fs_readFileSync W p) as [b|e]; [repeat split|].
  eapply quiet_trans; [|apply IH]. repeat split.
Qed.

Lemma resolveCover_quiet cb cf first o st :
  quiet st (snd (resolveCover W cb cf first o st)).
Proof.
  unfold resolveCover. unfold bind at 1.
  pose proof (coverFromFirstImage_quiet (cb, cf) first st) as H1.
  destruct (coverFromFirstImage W (cb, cf) first st) as [[[b1 n1]|e1] st1];
    simpl in H1; [|exact H1].
  unfold bind.
  destruct b1 as [b1|].
  - exact H1.
  - pose proof (coverFromDefaults_quiet (defaultCoverPaths W o) (None, n1) st1)
      as H2.
    destruct (coverFromDefaults W _ _ st1) as [[[b2 n2]|e2] st2]; simpl in H2.
    + destruct b2; simpl; eapply quiet_trans; eassumption.
    + simpl. eapply quiet_trans; eassumption.
Qed.

(** The cover chosen: the first present candidate. *)
Lemma resolveCover_result cb cf first o st :
  fst (resolveCover W cb cf first o st)
    = match firstSatisfied (coverCandidates W cb cf first o) with
      | Some cover => Normal cover
      | None => Throw (Error missingCoverMessage)
      end.
Proof.
  unfold resolveCover, coverCandidates. rewrite !firstSatisfied_cons.
  unfold bind at 1.
  pose proof (coverFromFirstImage_candidate W cb cf first st) as H1.
  destruct (coverFromFirstImage W (cb, cf) first st) as [[c1|e1] st1];
    simpl in H1; [|discriminate H1]. injection H1 as ->.
  destruct cb as [b0|]; [reflexivity|]. simpl option_map. cbv iota.
  destruct (if truthy first
            then readCandidate W (toStr first) (js "cover.jpg")
            else None) as [[b1 n1]|]; [reflexivity|].
  unfold bind.
  pose proof (coverFromDefaults_firstSatisfied W (defaultCoverPaths W o)
                (None, cf) st1) as H2.
  destruct (coverFromDefaults W (defaultCoverPaths W o) (None, cf) st1)
    as [[c2|e2] st2]; simpl in H2; [|discriminate H2]. injection H2 as ->.
  destruct (firstSatisfied _) as [[b2 n2]|]; reflexivity.
Qed.

(** *** Only media uploads are sent while rewriting *)

Lemma onlyMediaSent_refl st : onlyMediaSent st st.
Proof. exists []. rewrite app_nil_r. auto. Qed.

Lemma onlyMediaSent_trans a b c :
  onlyMediaSent a b -> onlyMediaSent b c -> onlyMediaSent a c.
Proof.
  intros (m1 & E1 & F1) (m2 & E2 & F2). exists (m1 ++ m2).
  rewrite E2, E1, app_assoc. split; [reflexivity|].
  apply Forall_app; auto.
Qed.

Lemma uploadImage_onlyMediaSent buf fn tok st :
  onlyMediaSent st (snd (uploadImage W buf fn tok st)).
Proof.
  unfold onlyMediaSent. rewrite uploadImage_net.
  destruct (liveEntry W st buf).
  - exists []. rewrite app_nil_r. auto.
  - eexists. split; [reflexivity|]. repeat constructor.
Qed.

Lemma uploadContentImages_onlyMediaSent html tok base st :
  onlyMediaSent st (snd (uploadContentImages W html tok base st)).
Proof.
  unfold uploadContentImages.
  apply (loop_preserves W tok base onlyMediaSent).
  - apply onlyMediaSent_refl.
  - apply onlyMediaSent_trans.
  - intros p st0. exists []. simpl. rewrite app_nil_r. auto.
  - intros l st0. exists []. simpl. rewrite app_nil_r. auto.
  - intros buf fn st0. apply uploadImage_onlyMediaSent.
Qed.

End PublishFacts.

Section PublishOutcomes.

Context (W : World).

Lemma publishArticle_sends title h thumb tok author digest st :
  snd (publishArticle W title h thumb tok author digest st)
  = log_request (draft_request title h thumb tok author digest) st.
Proof.
  unfold publishArticle, bind, request, draft_request.
  destruct (requestUrl_json W _ _) as [d|e]; [|reflexivity].
  destruct (errcode_set d); reflexivity.
Qed.

Lemma recordFirst_fold l : forall f,
  fold_left recordFirst l f = f
  \/ exists p, In p l /\ fold_left recordFirst l f = Some p.
Proof.
  induction l as [|q l IH]; intros f; [left; reflexivity|].
  simpl. destruct (IH (recordFirst f q)) as [E|(p & Hin & E)].
  - rewrite E. unfold recordFirst. destruct (truthy f); [left; reflexivity|].
    right. exists q. auto.
  - right. exists p. auto.
Qed.

Lemma processImage_unreadable tok base attrs vars st :
  Forall (unreadable W) (localImagePath W base attrs) ->
  quiet st (snd (processImage W tok base attrs vars st)).
Proof.
  unfold localImagePath. destruct vars as [h f].
  destruct (srcMatch attrs) as [src|] eqn:H.
  - destruct (isSkipped src) eqn:Hs.
    + intros _. rewrite (processImage_skipped _ _ _ _ _ _ _ H Hs).
      apply quiet_refl.
    + intros HF. apply Forall_inv in HF. destruct HF as [e He].
      rewrite (processImage_local _ _ _ _ _ _ _ _ H Hs). cbv zeta.
      rewrite readAndUpload_cases, He. repeat split.
  - intros _. rewrite (processImage_no_src _ _ _ _ _ _ H). apply quiet_refl.
Qed.

Lemma loop_unreadable tok base matches : forall vars st,
  Forall (unreadable W) (flat_map (localImagePath W base) matches) ->
  quiet st (snd (uploadContentImages_loop W tok base matches vars st)).
Proof.
  induction matches as [|a l IH]; intros vars st HF; [apply quiet_refl|].
  simpl in HF. apply Forall_app in HF as [Ha Hl].
  rewrite loop_cons.
  pose proof (processImage_unreadable tok base a vars st Ha) as H1.
  destruct (processImage_total W tok base a vars st) as (v & st1 & E).
  rewrite E in *. simpl in H1.
  eapply quiet_trans; [exact H1|apply IH, Hl].
Qed.

Lemma firstSatisfied_none {A : Type} (l : list (option A)) :
  Forall (fun c => c = None) l -> firstSatisfied l = None.
Proof.
  induction 1 as [|c l Hc _ IH]; [reflexivity|].
  rewrite firstSatisfied_cons, Hc. exact IH.
Qed.

End PublishOutcomes.

(** X5.  Refused credentials stop [publishToWechat] at its first step:
    when the token endpoint answers with a non-zero [errcode], the call
    throws the token error carrying that code and message, and all it has
    done is send the one token request, whose address carries the
    application id and secret; no file was read, no image uploaded and no
    draft created. *)
Theorem publishToWechat_credentials_refused (W : World)
    (title html : jsstring) (cb : option bytes) (cf : option jsstring)
    (o : PublishOptions) (author digest : option jsstring) (st : State)
    (data : WechatJson) :
  requestUrl_json W (length (net_log st))
    (token_request (appId o) (appSecret o)) = Normal data ->
  errcode_set data = true ->
  publishToWechat W title html cb cf o author digest st
  = (Throw (Error (js "获取 Access Token 失败: " ++ code_and_message data)),
     log_request (token_request (appId o) (appSecret o)) st).
Proof.
  intros Hreply Hcode.
  rewrite publishToWechat_steps, getAccessToken_cases, Hreply, Hcode.
  reflexivity.
Qed.

Lemma publishToWechat_credentials_refused_witness :
  publishToWechat Demo.refusing_world (js "Title") Demo.three_images
    None None Demo.bundled_options None None Demo.initial
  = (Throw (Error (js "获取 Access Token 失败: "
                     ++ code_and_message
                          (Demo.error_reply 45009
                             (js "reach max api daily quota limit")))),
     log_request (token_request (js "APP") (js "SECRET")) Demo.initial).
Proof.
  apply (publishToWechat_credentials_refused Demo.refusing_world (js "Title")
           Demo.three_images None None Demo.bundled_options None None
           Demo.initial
           (Demo.error_reply 45009 (js "reach max api daily quota limit"))).
  - reflexivity.
  - reflexivity.
Defined.

(** X6.  Without a cover from the caller, when no local image of the
    document can be read and every default cover path is missing or
    unreadable, [publishToWechat] throws the missing-cover error; by then
    it has sent the token request and nothing else, so no image was
    uploaded and no draft was created, and the cache is as it was. *)
Theorem publishToWechat_missing_cover (W : World)
    (title html : jsstring) (cf : option jsstring)
    (o : PublishOptions) (author digest : option jsstring) (st : State)
    (token : WechatJson) :
  requestUrl_json W (length (net_log st))
    (token_request (appId o) (appSecret o)) = Normal token ->
  errcode_set token = false ->
  Forall (unreadable W) (localImagePaths W (basePath o) html) ->
  Forall (fun p => fs_existsSync W p = false \/ unreadable W p)
    (defaultCoverPaths W o) ->
  exists st',
    publishToWechat W title html None cf o author digest st
      = (Throw (Error missingCoverMessage), st')
    /\ net_log st' = net_log st ++ [token_request (appId o) (appSecret o)]
    /\ uploadedImageCache st' = uploadedImageCache st.
Proof.
  intros Hreply Hcode Himages Hdefaults.
  rewrite publishToWechat_steps, getAccessToken_cases, Hreply, Hcode.
  cbv zeta. unfold uploadContentImages.
  set (st1 := log_request _ st). set (tok := toStr (access_token token)).
  destruct (loop_reads W tok (basePath o) (imgRegex_exec 0 html) html None st1)
    as (h' & st2 & E & _).
  pose proof (loop_unreadable W tok (basePath o) (imgRegex_exec 0 html)
                (html, None) st1 Himages) as Q2.
  rewrite E in *. simpl in Q2.
  set (first := fold_left recordFirst _ None) in *.
  pose proof (resolveCover_quiet W None cf first o st2) as Q3.
  pose proof (resolveCover_result W None cf first o st2) as R3.
  assert (Hnone : firstSatisfied (coverCandidates W None cf first o) = None).
  { apply firstSatisfied_none. unfold coverCandidates.
    constructor; [reflexivity|]. constructor.
    - destruct (truthy first) eqn:T; [|reflexivity].
      destruct (recordFirst_fold
                  (flat_map (localImagePath W (basePath o))
                     (imgRegex_exec 0 html)) None) as [E0|(p & Hin & E0)];
        fold first in E0; rewrite E0 in T |- *; [discriminate T|].
      simpl. unfold readCandidate.
      destruct (proj1 (List.Forall_forall _ _) Himages p Hin) as [e ->].
      reflexivity.
    - apply Forall_map. eapply Forall_impl; [exact Hdefaults|].
      intros p [->|[e He]]; [reflexivity|].
      destruct (fs_existsSync W p); [|reflexivity].
      unfold readCandidate. rewrite He. reflexivity. }
  rewrite Hnone in R3.
  destruct (resolveCover W None cf first o st2) as [[c|e] st3];
    simpl in R3, Q3; [discriminate R3|]. injection R3 as ->.
  exists st3. split; [reflexivity|].
  destruct Q2 as (N2 & C2 & _), Q3 as (N3 & C3 & _).
  split; [rewrite N3, N2; reflexivity|rewrite C3, C2; reflexivity].
Qed.

Lemma publishToWechat_missing_cover_witness :
  exists st',
    publishToWechat Demo.vault_world (js "Title") (Demo.img (js "b.png"))
      None None Demo.bundled_options None None Demo.initial
      = (Throw (Error missingCoverMessage), st')
    /\ net_log st' = [token_request (js "APP") (js "SECRET")]
    /\ uploadedImageCache st' = ∅.
Proof.
  apply (publishToWechat_missing_cover Demo.vault_world (js "Title")
           (Demo.img (js "b.png")) None Demo.bundled_options None None
           Demo.initial
           {| access_token := Some (js "TOKEN"); media_id := None;
              url := None; errcode := None; errmsg := None |}).
  - reflexivity.
  - reflexivity.
  - assert (E : localImagePaths Demo.vault_world
                  (basePath Demo.bundled_options) (Demo.img (js "b.png"))
                = [js "/vault/b.png"]) by (vm_compute; reflexivity).
    rewrite E. constructor; [|constructor].
    eexists. vm_compute. reflexivity.
  - assert (E : defaultCoverPaths Demo.vault_world Demo.bundled_options
                = [js "/vault/covers/missing.jpg";
                   js "/plugin/assets/default-cover.jpg";
                   js "/plugin/assets/default-cover.png"])
      by (vm_compute; reflexivity).
    rewrite E. repeat (constructor; [left; vm_compute; reflexivity|]).
    constructor.
Defined.

(** X7.  The requests of one [publishToWechat] call come in a fixed
    order: the token request first, then media uploads only, then at most
    one draft request, which is the last thing sent; a call that returns
    has sent the draft request. *)
Theorem publishToWechat_request_order (W : World)
    (title html : jsstring) (cb : option bytes) (cf : option jsstring)
    (o : PublishOptions) (author digest : option jsstring) (st : State) :
  exists media tail,
    net_log (snd (publishToWechat W title html cb cf o author digest st))
    = net_log st ++ token_request (appId o) (appSecret o) :: media ++ tail
    /\ Forall isMediaRequest media
    /\ (tail = []
        \/ exists h thumb tok,
             tail = [draft_request title h thumb tok author digest])
    /\ (forall r,
          fst (publishToWechat W title html cb cf o author digest st)
            = Normal r -> tail <> []).
Proof.
  rewrite publishToWechat_steps, getAccessToken_cases.
  set (st1 := log_request _ st).
  assert (N1 : forall l, net_log st ++ token_request (appId o) (appSecret o) :: l
                         = net_log st1 ++ l).
  { intros l. unfold st1. simpl. rewrite <- app_assoc. reflexivity. }
  assert (Hstop : forall (e : JsError) st',
            onlyMediaSent st1 st' ->
            exists media tail,
              net_log (snd (Throw (A := WechatJson) e, st'))
              = net_log st ++ token_request (appId o) (appSecret o)
                  :: media ++ tail
              /\ Forall isMediaRequest media
              /\ (tail = []
                  \/ exists h thumb tok,
                       tail = [draft_request title h thumb tok author digest])
              /\ (forall r, fst (Throw (A := WechatJson) e, st') = Normal r ->
                            tail <> [])).
  { intros e st' (m & E & F). exists m, []. rewrite app_nil_r, N1.
    simpl. repeat split; auto; discriminate. }
  destruct (match requestUrl_json W _ _ with
            | Normal data => _ | Throw e => _ end) as [token|e];
    [|apply Hstop, onlyMediaSent_refl].
  cbv zeta. set (tok := toStr (access_token token)).
  pose proof (uploadContentImages_onlyMediaSent W html tok (basePath o) st1)
    as M2.
  destruct (uploadContentImages W html tok (basePath o) st1)
    as [[[h' first]|e] st2]; simpl in M2; [|apply Hstop, M2].
  pose proof (resolveCover_quiet W cb cf first o st2) as (Q3 & _).
  destruct (resolveCover W cb cf first o st2) as [[[b fn]|e] st3];
    simpl in Q3.
  2:{ apply Hstop. destruct M2 as (m & E & F). exists m. rewrite Q3. auto. }
  pose proof (uploadImage_onlyMediaSent W b (coverUploadName fn) tok st3) as M4.
  assert (M14 : onlyMediaSent st1
                  (snd (uploadImage W b (coverUploadName fn) tok st3))).
  { eapply onlyMediaSent_trans; [|exact M4].
    destruct M2 as (m & E & F). exists m. rewrite Q3. auto. }
  destruct (uploadImage W b (coverUploadName fn) tok st3) as [[up|e] st4];
    simpl in M14; [|apply Hstop, M14].
  rewrite publishArticle_sends. destruct M14 as (m & E & F).
  exists m, [draft_request title h' (media_id up) tok author digest].
  rewrite N1, app_assoc, <- E. split; [reflexivity|]. split; [exact F|].
  split; [right; eauto|]. intros _ _. discriminate.
Qed.

(* ================================================================== *)
(** ** wechat.ts: the cover taken from the first image *)
(* ================================================================== *)

Section CoverReuse.

Context (W : World) (n : nat) (r1 : WechatJson) (d : jsstring).
Hypothesis window : clockWithinWindow W n.

Lemma uploadImage_ticks buf fn tok st :
  (clock_ticks st <= clock_ticks (snd (uploadImage W buf fn tok st)))%nat.
Proof.
  destruct (uploadedImageCache st !! getFileHash W buf) as [c|] eqn:Hc.
  - destruct (Z.lt_ge_cases (Date_now_at W (clock_ticks st) - timestamp c)
                cacheMaxAge) as [Hlive|Hold].
    + rewrite (uploadImage_hit W _ _ _ _ _ Hc Hlive). simpl. lia.
    + rewrite (uploadImage_expired W _ _ _ _ _ Hc Hold). cbv zeta.
      destruct (uploadImageInternal W buf fn tok _) as [[r|e] st0] eqn:E;
        apply uploadImageInternal_frame in E; subst st0; simpl; lia.
  - rewrite (uploadImage_miss W _ _ _ _ Hc).
    destruct (uploadImageInternal W buf fn tok _) as [[r|e] st0] eqn:E;
      apply uploadImageInternal_frame in E; subst st0; simpl; lia.
Qed.

Lemma holdsUpload_live buf st :
  getFileHash W buf = d -> (clock_ticks st <= n)%nat ->
  holdsUpload W r1 d st -> liveEntry W st buf = true.
Proof.
  intros <- Hn (c & j & Hc & _ & _ & Hts & Hj).
  unfold liveEntry. rewrite Hc, Hts. apply Z.ltb_lt, window. lia.
Qed.

Lemma uploadImage_keepsUpload buf fn tok st :
  keepsUpload W n r1 d st (snd (uploadImage W buf fn tok st)).
Proof.
  pose proof (uploadImage_ticks buf fn tok st) as Hticks.
  split; [exact Hticks|]. intros Hn Hheld.
  destruct (decide (getFileHash W buf = d)) as [Hd|Hd].
  - assert (L : liveEntry W st buf = true)
      by (apply holdsUpload_live; [exact Hd|lia|exact Hheld]).
    destruct (uploadImage_live W buf fn tok st L) as (c & _ & E).
    rewrite E. destruct Hheld as (c' & j & Hc' & Hm & Hu & Hts & Hj).
    exists c', j. simpl. repeat split; auto.
  - destruct Hheld as (c' & j & Hc' & Hm & Hu & Hts & Hj).
    exists c', j. repeat split; auto; [|lia].
    destruct (uploadImage_cache_shape W buf fn tok st) as [->|[->|[e ->]]].
    + exact Hc'.
    + rewrite lookup_delete_ne by exact Hd. exact Hc'.
    + rewrite lookup_insert_ne by exact Hd. exact Hc'.
Qed.

Lemma keepsUpload_refl st : keepsUpload W n r1 d st st.
Proof. split; [lia|auto]. Qed.

Lemma keepsUpload_trans a b c :
  keepsUpload W n r1 d a b -> keepsUpload W n r1 d b c ->
  keepsUpload W n r1 d a c.
Proof.
  intros [T1 K1] [T2 K2]. split; [lia|].
  intros Hn Ha. apply K2; [exact Hn|]. apply K1; [lia|exact Ha].
Qed.

Lemma loop_keepsUpload tok base matches vars st :
  keepsUpload W n r1 d st
    (snd (uploadContentImages_loop W tok base matches vars st)).
Proof.
  apply (loop_preserves W tok base (keepsUpload W n r1 d)).
  - apply keepsUpload_refl.
  - apply keepsUpload_trans.
  - intros p st0. split; [simpl; lia|]. intros _ H. exact H.
  - intros l st0. split; [simpl; lia|]. intros _ H. exact H.
  - intros buf fn st0. apply uploadImage_keepsUpload.
Qed.

(** The first local image of the loop, read and uploaded: its answer is
    in the cache when the loop ends. *)
Lemma loop_first_upload tok base b1 p1 rest matches : forall h f st,
  flat_map (localImagePath W base) matches = p1 :: rest ->
  fs_readFileSync W p1 = Normal b1 ->
  getFileHash W b1 = d ->
  liveEntry W st b1 = false ->
  reply_accepted (https_request W (length (net_log st))
                    (media_request b1 (uploadFilename p1) tok)) = Some r1 ->
  (clock_ticks (snd (uploadContentImages_loop W tok base matches (h, f) st))
   <= n)%nat ->
  holdsUpload W r1 d
    (snd (uploadContentImages_loop W tok base matches (h, f) st)).
Proof.
  induction matches as [|a l IH]; intros h f st Hpaths Hread Hd Hlive Hr;
    [discriminate Hpaths|].
  rewrite loop_cons. simpl in Hpaths. unfold localImagePath at 1 in Hpaths.
  destruct (srcMatch a) as [src|] eqn:H.
  - destruct (isSkipped src) eqn:Hs.
    + rewrite (processImage_skipped _ _ _ _ _ _ _ H Hs).
      apply IH; assumption.
    + injection Hpaths as Hp1 Hrest.
      rewrite (processImage_local _ _ _ _ _ _ _ _ H Hs). cbv zeta.
      rewrite Hp1, readAndUpload_cases, Hread.
      assert (L : liveEntry W (log_read p1 st) b1 = false) by exact Hlive.
      destruct (uploadImage_not_live W b1 (uploadFilename p1) tok _ L)
        as (st0 & Hc0 & Hn0 & _ & _ & ->).
      rewrite (uploadImageInternal_accepted W _ _ _ st0 r1)
        by (rewrite Hn0; exact Hr).
      intros Hn.
      match goal with
      | |- holdsUpload _ _ _ (snd (uploadContentImages_loop _ _ _ _ ?v ?s)) =>
          destruct (loop_keepsUpload tok base l v s) as [_ K]
      end.
      apply K; [exact Hn|].
      eexists. exists (clock_ticks st0). simpl. rewrite Hd, lookup_insert_eq.
      repeat split; auto.
  - rewrite (processImage_no_src _ _ _ _ _ _ H). apply IH; assumption.
Qed.

End CoverReuse.

(** X8.  The cover taken from the first local image is not uploaded a
    second time.  With no cover from the caller, when the first local
    image of the document is readable, has no live cache entry and its
    upload is accepted while the document is rewritten, and the clock
    readings of the run stay within the validity window, the cover step
    reads that file again, finds its upload in the cache and sends
    nothing: the draft is submitted with the media identifier obtained
    while rewriting, right after the rewriting, one file read and one
    clock reading. *)
Theorem publishToWechat_cover_reuses_first_upload (W : World)
    (title html : jsstring) (cf : option jsstring)
    (o : PublishOptions) (author digest : option jsstring) (st : State)
    (token r1 : WechatJson) (p1 : jsstring) (rest : list jsstring)
    (b1 : bytes) :
  let tok := toStr (access_token token) in
  let st1 := log_request (token_request (appId o) (appSecret o)) st in
  requestUrl_json W (length (net_log st))
    (token_request (appId o) (appSecret o)) = Normal token ->
  errcode_set token = false ->
  localImagePaths W (basePath o) html = p1 :: rest ->
  p1 <> [] ->
  fs_readFileSync W p1 = Normal b1 ->
  liveEntry W st b1 = false ->
  reply_accepted (https_request W (length (net_log st1))
                    (media_request b1 (uploadFilename p1) tok)) = Some r1 ->
  clockWithinWindow W
    (clock_ticks (snd (uploadContentImages W html tok (basePath o) st1))) ->
  exists h' st2,
    uploadContentImages W html tok (basePath o) st1
      = (Normal (h', Some p1), st2)
    /\ publishToWechat W title html None cf o author digest st
       = publishArticle W title h' (media_id r1) tok author digest
           (tick (log_read p1 st2)).
Proof.
  intros tok st1 Hreply Hcode Hpaths Hp1 Hread Hlive Hr Hwindow.
  rewrite publishToWechat_steps, getAccessToken_cases, Hreply, Hcode.
  cbv zeta. fold tok st1.
  pose proof (loop_first_upload W _ r1 (getFileHash W b1) Hwindow tok
                (basePath o) b1 p1 rest (imgRegex_exec 0 html) html None st1
                Hpaths Hread eq_refl Hlive Hr (Nat.le_refl _)) as Hheld.
  unfold uploadContentImages in *.
  destruct (loop_reads W tok (basePath o) (imgRegex_exec 0 html) html None st1)
    as (h' & st2 & E & _).
  fold (localImagePaths W (basePath o) html) in E.
  rewrite Hpaths in E. simpl fold_left in E.
  change (recordFirst None p1) with (Some p1) in E.
  rewrite (recordFirst_kept p1 rest Hp1) in E.
  rewrite E in *. simpl in Hheld, Hwindow.
  exists h', st2. split; [reflexivity|].
  assert (Hcover : resolveCover W None cf (Some p1) o st2
            = (Normal (b1, Some (orElse (lastSegment p1) (js "cover.jpg"))),
               log_read p1 st2)).
  { unfold resolveCover, coverFromFirstImage, bind, try_catch, readFileSync.
    simpl. destruct p1 as [|c p1]; [congruence|]. simpl. rewrite Hread.
    reflexivity. }
  rewrite Hcover.
  assert (L : liveEntry W (log_read p1 st2) b1 = true).
  { apply (holdsUpload_live W _ r1 (getFileHash W b1) Hwindow);
      [reflexivity|simpl; lia|].
    destruct Hheld as (c & j & H1 & H2 & H3 & H4 & H5).
    exists c, j. auto. }
  destruct (uploadImage_live W b1
              (coverUploadName (Some (orElse (lastSegment p1) (js "cover.jpg"))))
              tok _ L) as (c & Hc & ->).
  destruct Hheld as (c' & j & Hc' & Hm & _).
  simpl in Hc. rewrite Hc' in Hc. injection Hc as <-.
  simpl. rewrite Hm. reflexivity.
Qed.

Lemma publishToWechat_cover_reuses_first_upload_witness :
  exists h' st2,
    uploadContentImages Demo.vault_world Demo.three_images (js "TOKEN")
      Demo.note (log_request (token_request (js "APP") (js "SECRET"))
                   Demo.initial)
      = (Normal (h', Some (js "/vault/a.png")), st2)
    /\ publishToWechat Demo.vault_world (js "Title") Demo.three_images
         None None Demo.bundled_options None None Demo.initial
       = publishArticle Demo.vault_world (js "Title") h'
           (media_id (Demo.ok_reply 1 (js "a.png"))) (js "TOKEN") None None
           (tick (log_read (js "/vault/a.png") st2)).
Proof.
  apply (publishToWechat_cover_reuses_first_upload Demo.vault_world
           (js "Title") Demo.three_images None Demo.bundled_options None None
           Demo.initial
           {| access_token := Some (js "TOKEN"); media_id := None;
              url := None; errcode := None; errmsg := None |}
           (Demo.ok_reply 1 (js "a.png"))
           (js "/vault/a.png") [js "/vault/b.png"; js "/vault/c.png"]
           (Demo.file_bytes Byte.x41)).
  - reflexivity.
  - reflexivity.
  - vm_compute. reflexivity.
  - vm_compute. discriminate.
  - vm_compute. reflexivity.
  - reflexivity.
  - vm_compute. reflexivity.
  - assert (E : clock_ticks
                  (snd (uploadContentImages Demo.vault_world Demo.three_images
                          (toStr (Some (js "TOKEN")))
                          (basePath Demo.bundled_options)
                          (log_request (token_request
                                          (appId Demo.bundled_options)
                                          (appSecret Demo.bundled_options))
                             Demo.initial))) = 2%nat)
      by (vm_compute; reflexivity).
    simpl access_token. rewrite E. intros i j Hij.
    change (Date_now_at Demo.vault_world) with (Demo.ticking 0 1).
    unfold Demo.ticking, cacheMaxAge. lia.
Defined.

(* ================================================================== *)
(** ** utils.ts and file names *)
(* ================================================================== *)

Section PathFacts.

Lemma lastSegment_aux_spec s : forall cur,
  Forall (fun c => isSep c = false) cur ->
  Forall (fun c => isSep c = false) (lastSegment_aux cur s)
  /\ exists pre, rev cur ++ s = pre ++ lastSegment_aux cur s.
Proof.
  induction s as [|c t IH]; intros cur Hcur; simpl.
  - split; [apply Forall_rev, Hcur|]. exists []. rewrite app_nil_r. reflexivity.
  - destruct (isSep c) eqn:Hc.
    + destruct (IH [] (List.Forall_nil _)) as [HF [pre E]]. split; [exact HF|].
      exists (rev cur ++ c :: pre). simpl in E. rewrite <- app_assoc. simpl.
      rewrite <- E. reflexivity.
    + destruct (IH (c :: cur)) as [HF [pre E]]; [constructor; assumption|].
      split; [exact HF|]. exists pre. rewrite <- E. simpl.
      rewrite <- app_assoc. reflexivity.
Qed.

(** The stand-in [resolve] of the examples gives absolute paths and
    leaves them alone. *)
Lemma Demo_resolve_absolute l :
  startsWith (Demo.resolve l) [47] = true.
Proof.
  unfold Demo.resolve. change (js "/") with [47].
  assert (H : forall acc, startsWith acc [47] = true ->
            startsWith (fold_left (fun acc seg =>
                          if startsWith seg [47] then seg
                          else acc ++ [47] ++ seg) l acc) [47] = true).
  { induction l as [|seg l IH]; intros acc Hacc; [exact Hacc|].
    simpl fold_left. apply IH.
    destruct (startsWith seg [47]) eqn:Hseg; [exact Hseg|].
    destruct acc as [|c acc]; [discriminate Hacc|]. simpl in Hacc |- *.
    destruct (c =? 47); [|discriminate Hacc].
    destruct (acc ++ 47 :: seg); reflexivity. }
  apply H. reflexivity.
Qed.

Lemma Demo_resolve_idempotent l :
  Demo.resolve [Demo.resolve l] = Demo.resolve l.
Proof.
  pose proof (Demo_resolve_absolute l) as H.
  unfold Demo.resolve at 1. change (js "/") with [47]. simpl fold_left.
  rewrite H. reflexivity.
Qed.

End PathFacts.

(** X9.  Given that [resolve] leaves its own results alone (they are
    absolute), [resolvePathRelativeTo] always returns a path that
    [resolve] leaves alone, and gives that path back unchanged when it is
    resolved again, relative to whatever base. *)
Theorem resolvePathRelativeTo_absolute (W : World)
    (filePath basePath : jsstring) :
  (forall l, path_resolve W [path_resolve W l] = path_resolve W l) ->
  path_resolve W [resolvePathRelativeTo W filePath basePath]
    = resolvePathRelativeTo W filePath basePath
  /\ forall basePath',
       resolvePathRelativeTo W (resolvePathRelativeTo W filePath basePath)
         basePath'
       = resolvePathRelativeTo W filePath basePath.
Proof.
  intros Hidem.
  assert (Hfix : path_resolve W [resolvePathRelativeTo W filePath basePath]
                 = resolvePathRelativeTo W filePath basePath).
  { unfold resolvePathRelativeTo. case_bool_decide as H; [exact H|apply Hidem]. }
  split; [exact Hfix|]. intros basePath'.
  unfold resolvePathRelativeTo at 1. rewrite bool_decide_eq_true_2 by exact Hfix.
  reflexivity.
Qed.

Lemma resolvePathRelativeTo_absolute_witness :
  path_resolve Demo.vault_world
    [resolvePathRelativeTo Demo.vault_world (js "img/a.png")
       (js "/vault/notes/note.md")]
  = resolvePathRelativeTo Demo.vault_world (js "img/a.png")
      (js "/vault/notes/note.md")
  /\ forall basePath',
       resolvePathRelativeTo Demo.vault_world
         (resolvePathRelativeTo Demo.vault_world (js "img/a.png")
            (js "/vault/notes/note.md")) basePath'
       = resolvePathRelativeTo Demo.vault_world (js "img/a.png")
           (js "/vault/notes/note.md").
Proof.
  apply (resolvePathRelativeTo_absolute Demo.vault_world (js "img/a.png")
           (js "/vault/notes/note.md")).
  intros l. apply Demo_resolve_idempotent.
Defined.

(** X10.  The file name sent with an uploaded image is never empty and
    holds neither a slash nor a backslash: it is the default name, or what
    follows the last separator of the path. *)
Theorem uploadFilename_bare (imagePath : jsstring) :
  uploadFilename imagePath <> []
  /\ Forall (fun c => isSep c = false) (uploadFilename imagePath)
  /\ (uploadFilename imagePath = js "image.jpg"
      \/ exists pre, imagePath = pre ++ uploadFilename imagePath).
Proof.
  unfold uploadFilename, lastSegment.
  destruct (lastSegment_aux_spec imagePath [] (List.Forall_nil _)) as [HF [pre E]].
  simpl in E. destruct (lastSegment_aux [] imagePath) as [|c l] eqn:Hl.
  - split; [discriminate|]. split; [|left; reflexivity].
    vm_compute. repeat (constructor; [reflexivity|]). constructor.
  - split; [discriminate|]. split; [exact HF|]. right. exists pre. exact E.
Qed.

(* ================================================================== *)
(** ** parser.ts: the TOML block *)
(* ================================================================== *)

Section ParserFacts.

Import Renderer Parser.

Lemma startsWith_nil s : startsWith s [] = true.
Proof. destruct s; reflexivity. Qed.

Lemma trimStart_app ws s :
  Forall (fun c => isWhiteSpace c = true) ws ->
  trimStart (ws ++ s) = trimStart s.
Proof.
  induction 1 as [|c ws Hc _ IH]; [reflexivity|].
  simpl. rewrite Hc. exact IH.
Qed.

(** Three plus signs cannot begin inside [t] and end in [tail] when
    [tail] does not start with a plus sign. *)
Lemma startsWith_pluses t tail :
  startsWith tail [plus] = false ->
  startsWith t [plus; plus; plus] = false ->
  startsWith (t ++ tail) [plus; plus; plus] = false.
Proof.
  intros Htail Ht.
  assert (H1 : forall l, startsWith tail (plus :: l) = false).
  { intros l. destruct tail as [|x tail]; [reflexivity|].
    simpl in Htail |- *. destruct (x =? plus); [|reflexivity].
    destruct tail; discriminate Htail. }
  destruct t as [|a [|b [|c t]]]; simpl app.
  - apply H1.
  - simpl. rewrite H1. apply andb_false_r.
  - simpl. rewrite H1, !andb_false_r. reflexivity.
  - simpl in Ht |- *. rewrite startsWith_nil in *. exact Ht.
Qed.

Lemma closing_feed t tail :
  t <> [] ->
  startsWith tail [plus] = false ->
  freeOf [LF; plus; plus; plus] t = true ->
  startsWith (t ++ tail) [LF; plus; plus; plus] = false.
Proof.
  intros Hne Htail Hfree. destruct t as [|c t]; [contradiction|].
  simpl in Hfree. apply andb_true_iff in Hfree as [Hhead _].
  apply negb_true_iff in Hhead. simpl app.
  change (startsWith (c :: t ++ tail) [LF; plus; plus; plus])
    with ((c =? LF) && startsWith (t ++ tail) [plus; plus; plus]).
  change (startsWith (c :: t) [LF; plus; plus; plus])
    with ((c =? LF) && startsWith t [plus; plus; plus]) in Hhead.
  destruct (c =? LF); [|reflexivity]. simpl in Hhead |- *.
  apply startsWith_pluses; assumption.
Qed.

Lemma closing_inside t eol rest :
  lineEnd eol -> t <> [] ->
  freeOf [LF; plus; plus; plus] t = true ->
  (eol = [LF] -> last t <> Some CR) ->
  closing (t ++ eol ++ plus :: plus :: plus :: rest) = None.
Proof.
  intros Heol Hne Hfree Hlast.
  assert (Htail : startsWith (eol ++ plus :: plus :: plus :: rest) [plus] = false)
    by (destruct Heol as [->| ->]; reflexivity).
  unfold closing.
  rewrite (closing_feed t _ Hne Htail Hfree).
  destruct t as [|c [|c' t]]; [contradiction| |].
  - cbn [app startsWith].
    destruct Heol as [->| ->]; cbn [app startsWith].
    + destruct (N.eqb_spec c CR) as [->|]; [|reflexivity].
      exfalso. apply Hlast; reflexivity.
    + rewrite andb_false_r. reflexivity.
  - simpl in Hfree. apply andb_true_iff in Hfree as [_ Hfree].
    pose proof (closing_feed (c' :: t) _ ltac:(discriminate) Htail Hfree) as H.
    cbn [app startsWith] in H |- *. rewrite H, andb_false_r. reflexivity.
Qed.

Lemma closing_end eol rest :
  lineEnd eol -> closing (eol ++ plus :: plus :: plus :: rest) = Some rest.
Proof.
  intros [->| ->]; unfold closing; simpl; rewrite ?startsWith_nil; reflexivity.
Qed.

(** The lazy body stops at the first line end followed by three plus
    signs. *)
Lemma lazyBody_spec eol rest body : forall captured,
  lineEnd eol -> body <> [] ->
  freeOf [LF; plus; plus; plus] body = true ->
  (eol = [LF] -> last body <> Some CR) ->
  lazyBody captured (body ++ eol ++ plus :: plus :: plus :: rest)
    = Some (rev captured ++ body, rest).
Proof.
  induction body as [|c t IH]; intros captured Heol Hne Hfree Hlast;
    [contradiction|].
  simpl app. cbn [lazyBody]. destruct t as [|c' t].
  - simpl app. rewrite (closing_end eol rest Heol). reflexivity.
  - assert (Hfree' : freeOf [LF; plus; plus; plus] (c' :: t) = true).
    { simpl in Hfree. apply andb_true_iff in Hfree as [_ Hfree]. exact Hfree. }
    rewrite (closing_inside (c' :: t) eol rest Heol ltac:(discriminate) Hfree'
               Hlast).
    rewrite (IH (c :: captured) Heol ltac:(discriminate) Hfree' Hlast).
    simpl. rewrite <- app_assoc. reflexivity.
Qed.

End ParserFacts.

(** X11.  A document that opens, after any leading white space, with a
    line of three plus signs, a non-empty body and a closing line of three
    plus signs is parsed as TOML front matter: the body handed to the
    TOML parser is the text between the two lines, up to the first line
    feed followed by three plus signs; the content is what follows the
    closing plus signs, trimmed; a failure of the TOML parser is thrown
    again as an [Error] with a fixed prefix; the other parser is not
    consulted.  Line ends may be a line feed or a carriage return and a
    line feed. *)
Theorem parseFrontMatter_toml_block {Data : Type} (E : Parser.Engines Data)
    (ws eol0 eol body rest : jsstring) :
  Forall (fun c => Renderer.isWhiteSpace c = true) ws ->
  Parser.lineEnd eol0 -> Parser.lineEnd eol ->
  body <> [] ->
  Parser.freeOf [Parser.LF; Parser.plus; Parser.plus; Parser.plus] body
    = true ->
  (eol = [Parser.LF] -> last body <> Some Parser.CR) ->
  Parser.parseFrontMatter E
    (ws ++ js "+++" ++ eol0 ++ body ++ eol ++ js "+++" ++ rest)
  = match Parser.toml_parse E body with
    | Normal data => Normal (Renderer.trim rest, data)
    | Throw error =>
        Throw (Error (js "TOML 解析失败: " ++ errorToString error))
    end.
Proof.
  intros Hws Heol0 Heol Hne Hfree Hlast. unfold Parser.parseFrontMatter.
  rewrite (trimStart_app ws _ Hws).
  change (js "+++") with [43; 43; 43].
  assert (Htrim : Renderer.trimStart
                    ([43; 43; 43] ++ eol0 ++ body ++ eol ++ [43; 43; 43] ++ rest)
                  = 43 :: 43 :: 43 :: eol0 ++ body ++ eol
                      ++ 43 :: 43 :: 43 :: rest) by reflexivity.
  rewrite Htrim.
  assert (Hm : Parser.matchTomlBlock
                 (43 :: 43 :: 43 :: eol0 ++ body ++ eol ++ 43 :: 43 :: 43 :: rest)
               = Some (body, rest)).
  { unfold Parser.matchTomlBlock.
    destruct Heol0 as [->| ->]; simpl; rewrite ?startsWith_nil; simpl;
      apply (lazyBody_spec eol rest body [] Heol Hne Hfree Hlast). }
  rewrite Hm.
  change (startsWith
            (43 :: 43 :: 43 :: eol0 ++ body ++ eol ++ 43 :: 43 :: 43 :: rest)
            [43; 43; 43])
    with (startsWith (eol0 ++ body ++ eol ++ 43 :: 43 :: 43 :: rest) []).
  rewrite startsWith_nil. reflexivity.
Qed.

Lemma parseFrontMatter_toml_block_witness :
  Parser.parseFrontMatter Parser.raw_engines
    ([10; 32] ++ js "+++" ++ [10]
       ++ (js "title = 'A+++B'" ++ [10] ++ js "date = 2026-02-02T10:00:00+08:00")
       ++ [13; 10] ++ js "+++" ++ (10 :: 10 :: js "# Heading" ++ [10]))
  = Normal (js "# Heading",
            js "title = 'A+++B'" ++ [10] ++ js "date = 2026-02-02T10:00:00+08:00").
Proof.
  rewrite (parseFrontMatter_toml_block Parser.raw_engines [10; 32] [10]
             [13; 10]
             (js "title = 'A+++B'" ++ [10]
                ++ js "date = 2026-02-02T10:00:00+08:00")
             (10 :: 10 :: js "# Heading" ++ [10])).
  - vm_compute. reflexivity.
  - repeat constructor.
  - left. reflexivity.
  - right. reflexivity.
  - vm_compute. discriminate.
  - vm_compute. reflexivity.
  - discriminate.
Defined.

(* ================================================================== *)
(** ** renderer.ts: the text of code blocks *)
(* ================================================================== *)

Section CodeTextFacts.

Import CodeText.

Lemma flush_spec cur :
  Forall (fun c => isLayout c = false) cur ->
  concat (map nodeSource (flush cur)) = rev cur
  /\ Forall wellSplit (flush cur).
Proof.
  intros H. destruct cur as [|c cur]; [split; [reflexivity|constructor]|].
  unfold flush. split; [simpl; apply app_nil_r|].
  constructor; [|constructor]. split.
  - simpl. destruct (rev cur); discriminate.
  - apply Forall_rev, H.
Qed.

Lemma splitLoop_spec text : forall cur,
  Forall (fun c => isLayout c = false) cur ->
  concat (map nodeSource (splitLoop cur text)) = rev cur ++ text
  /\ Forall wellSplit (splitLoop cur text).
Proof.
  induction text as [|c t IH]; intros cur Hcur.
  - simpl. rewrite app_nil_r. apply flush_spec, Hcur.
  - cbn [splitLoop].
    destruct (flush_spec cur Hcur) as [Hsrc Hok].
    destruct (IH [] (List.Forall_nil _)) as [Hsrc0 Hok0]. simpl in Hsrc0.
    destruct (N.eqb_spec c 10) as [->|Hlf];
      [|destruct (N.eqb_spec c 32) as [->|Hsp]].
    + rewrite map_app, concat_app, Hsrc. simpl. rewrite Hsrc0.
      split; [reflexivity|]. apply Forall_app. split; [exact Hok|].
      constructor; [exact I|exact Hok0].
    + rewrite map_app, concat_app, Hsrc. simpl. rewrite Hsrc0.
      split; [reflexivity|]. apply Forall_app. split; [exact Hok|].
      constructor; [exact I|exact Hok0].
    + destruct (IH (c :: cur)) as [Hsrc1 Hok1].
      { constructor; [|exact Hcur]. unfold isLayout.
        apply N.eqb_neq in Hlf, Hsp. rewrite Hlf, Hsp. reflexivity. }
      split; [|exact Hok1]. rewrite Hsrc1. simpl. rewrite <- app_assoc.
      reflexivity.
Qed.

Lemma includes_false text :
  includes text 10 || includes text 32 = false ->
  Forall (fun c => isLayout c = false) text.
Proof.
  unfold includes. induction text as [|c t IH]; [constructor|].
  cbn [existsb]. rewrite !orb_false_iff. intros [[H1 H2] [H3 H4]].
  constructor.
  - unfold isLayout. rewrite (N.eqb_sym c 10), H1, (N.eqb_sym c 32), H3.
    reflexivity.
  - apply IH. rewrite H2, H4. reflexivity.
Qed.

End CodeTextFacts.

(** X12.  Splitting the text of a code block loses nothing and isolates
    all layout: the nodes that replace a text node spell, in order, the
    text they replace, with one line-break element for each line feed and
    one spacing element for each space; and for a text that is not empty,
    no text node that results is empty or holds a line feed or a space. *)
Theorem processTextNode_lossless (text : jsstring) :
  concat (map CodeText.nodeSource (CodeText.processTextNode text)) = text
  /\ (text <> [] ->
      Forall CodeText.wellSplit (CodeText.processTextNode text)).
Proof.
  unfold CodeText.processTextNode.
  destruct (CodeText.includes text 10 || CodeText.includes text 32) eqn:H.
  - destruct (splitLoop_spec text [] (List.Forall_nil _)) as [Hsrc Hok].
    split; [exact Hsrc|]. intros _. exact Hok.
  - split; [simpl; apply app_nil_r|]. intros Hne.
    constructor; [|constructor]. split; [exact Hne|].
    apply includes_false, H.
Qed.

(* ================================================================== *)
(** ** renderer.ts: the highlight stylesheet *)
(* ================================================================== *)

Section HighlightFacts.

Import Highlight.

Lemma prefixSelectors_inert s : forall k,
  Forall (fun c => isLineTerminator c = false) s ->
  prefixSelectors false k s = s.
Proof.
  induction s as [|c t IH]; intros k H; [reflexivity|].
  inversion H as [|? ? Hc Ht]; subst. cbn [prefixSelectors]. rewrite Hc.
  destruct k; rewrite IH by exact Ht; reflexivity.
Qed.

Lemma prefixSelectors_first_rule sel rest :
  sel <> [] ->
  Forall (fun c => isChar "{" c = false) sel ->
  Forall (fun c => isLineTerminator c = false) (sel ++ 123 :: rest) ->
  prefixSelectors true 0 (sel ++ 123 :: rest)
    = md2mpPrefix ++ sel ++ 123 :: rest.
Proof.
  intros Hne Hsel Hline.
  pose proof (span_until (fun x => negb (isChar "{" x)) sel 123 rest) as Hspan.
  destruct sel as [|c sel]; [contradiction|].
  simpl app in *. cbn [prefixSelectors]. rewrite Hspan.
  - inversion Hline as [|? ? Hc Ht]; subst. rewrite Hc.
    rewrite prefixSelectors_inert by exact Ht. reflexivity.
  - eapply Forall_impl; [exact Hsel|]. intros x ->. reflexivity.
  - reflexivity.
Qed.

End HighlightFacts.

(** X13.  The highlight stylesheet is the one of the requested theme, or
    the GitHub one when the requested file cannot be read.  When that
    stylesheet has no line break (a minified file) and starts with a
    selector followed by an opening brace, the prefix [#md2mp ] is put in
    front of that first selector only: the result is the prefix followed
    by the stylesheet as it was. *)
Theorem getHighlightThemeCss_single_line (W : World)
    (readText : jsstring -> Completion jsstring)
    (pluginPath theme sel rest : jsstring) :
  readText (Highlight.stylePath W pluginPath theme) = Normal (sel ++ 123 :: rest)
  \/ ((exists e, readText (Highlight.stylePath W pluginPath theme) = Throw e)
      /\ readText (Highlight.stylePath W pluginPath (js "github"))
         = Normal (sel ++ 123 :: rest)) ->
  sel <> [] ->
  Forall (fun c => isChar "{" c = false) sel ->
  Forall (fun c => Highlight.isLineTerminator c = false) (sel ++ 123 :: rest) ->
  Highlight.getHighlightThemeCss W readText pluginPath theme
    = Normal (Highlight.md2mpPrefix ++ sel ++ 123 :: rest).
Proof.
  intros Hread Hne Hsel Hline. unfold Highlight.getHighlightThemeCss.
  destruct Hread as [->|[[e ->] ->]];
    rewrite (prefixSelectors_first_rule sel rest Hne Hsel Hline); reflexivity.
Qed.

Lemma getHighlightThemeCss_single_line_witness :
  Highlight.getHighlightThemeCss Demo.vault_world
    (fun p => if bool_decide
                   (p = js "/plugin/node_modules/highlight.js/styles/github.min.css")
              then Normal (js ".hljs" ++ 123 :: js "color:#24292e}.hljs-doctag{color:#d73a49}")
              else Throw (Demo.ENOENT p))
    (js "/plugin") (js "solarized")
  = Normal (Highlight.md2mpPrefix ++ js ".hljs"
              ++ 123 :: js "color:#24292e}.hljs-doctag{color:#d73a49}").
Proof.
  apply (getHighlightThemeCss_single_line Demo.vault_world _ (js "/plugin")
           (js "solarized") (js ".hljs")
           (js "color:#24292e}.hljs-doctag{color:#d73a49}")).
  - right. split; [eexists|]; vm_compute; reflexivity.
  - vm_compute. discriminate.
  - apply (Forall_false_forallb (isChar "{")). vm_compute. reflexivity.
  - apply (Forall_false_forallb Highlight.isLineTerminator).
    vm_compute. reflexivity.
Defined.

(* ================================================================== *)
(** ** themes.ts *)
(* ================================================================== *)

(** X14.  The theme table has no two entries with the same identifier:
    looking a listed theme up by its identifier finds that very entry,
    and whatever a lookup finds is an entry of the table with the
    identifier asked for. *)
Theorem getThemeMeta_by_id (t : Themes.ThemeMeta) (themeId : jsstring) :
  (In t Themes.themes -> Themes.getThemeMeta (Themes.id t) = Some t)
  /\ (Themes.getThemeMeta themeId = Some t ->
      In t Themes.themes /\ Themes.id t = themeId).
Proof.
  split.
  - intros Hin. unfold Themes.themes in Hin. simpl in Hin.
    repeat (destruct Hin as [<-|Hin]; [vm_compute; reflexivity|]).
    contradiction.
  - unfold Themes.getThemeMeta. intros H.
    apply find_some in H as [Hin Hid].
    split; [exact Hin|]. apply bool_decide_eq_true in Hid. exact Hid.
Qed.

(** X15.  The highlight theme [wrapWithWechatStyle] loads is the one the
    caller asks for, except under the themes that bring their own: with
    the theme [ocean], [forest] or [sunset] it is [atom-one-dark], with
    [midnight] it is [monokai], whatever the caller asks for; with any
    other theme, an unknown one or none, the caller's choice stands. *)
Theorem actualHighlightTheme_override (highlightTheme : jsstring)
    (themeId : option jsstring) :
  Themes.actualHighlightTheme highlightTheme themeId
  = match themeId with
    | Some s =>
        if bool_decide (s = js "ocean" \/ s = js "forest" \/ s = js "sunset")
        then js "atom-one-dark"
        else if bool_decide (s = js "midnight") then js "monokai"
        else highlightTheme
    | None => highlightTheme
    end.
Proof.
  destruct themeId as [s|]; [|reflexivity].
  unfold Themes.actualHighlightTheme, Themes.getThemeMeta, Themes.themes.
  destruct s as [|c s].
  { simpl truthy. cbv iota.
    rewrite (bool_decide_eq_false_2
               ([] = js "ocean" \/ [] = js "forest" \/ [] = js "sunset"))
      by (intros [H|[H|H]]; vm_compute in H; discriminate H).
    rewrite bool_decide_eq_false_2 by (vm_compute; discriminate).
    reflexivity. }
  simpl truthy. cbv iota. cbn [find Themes.id toStr].
  match goal with |- _ = ?rhs => set (chosen := rhs) end.
  repeat
    (case_bool_decide;
     [ cbn [Themes.highlightTheme truthy toStr]; subst chosen;
       match goal with Hid : _ = c :: s |- _ => rewrite <- Hid end;
       vm_compute; reflexivity | ]).
  subst chosen.
  rewrite (bool_decide_eq_false_2
             (c :: s = js "ocean" \/ c :: s = js "forest"
              \/ c :: s = js "sunset"))
    by (intros [E|[E|E]]; congruence).
  rewrite bool_decide_eq_false_2 by congruence.
  reflexivity.
Qed.

(* ================================================================== *)
(** ** renderer.ts: more on wiki images *)
(* ================================================================== *)

Section EncodingFacts.

Import Renderer.

Lemma class_printable c :
  inPathClass c || isUriMark c = true -> printable c = true.
Proof.
  unfold inPathClass, isUriMark, isLower, isUpper, isDigit, isChar, cu,
    backslash, printable.
  simpl N_of_ascii.
  rewrite !orb_true_iff, !andb_true_iff, !N.leb_le, !N.eqb_eq. lia.
Qed.

Lemma hexDigit_printable n : n < 16 -> printable (hexDigit n) = true.
Proof.
  intros H. unfold hexDigit, printable.
  destruct (N.ltb_spec n 10); rewrite andb_true_iff, !N.leb_le; lia.
Qed.

Lemma percentOctet_printable b :
  b < 256 -> Forall (fun c => printable c = true) (percentOctet b).
Proof.
  intros H. unfold percentOctet.
  repeat constructor; apply hexDigit_printable.
  - apply N.Div0.div_lt_upper_bound. lia.
  - apply N.mod_upper_bound. lia.
Qed.

Lemma utf8_octets c : c < 65536 -> Forall (fun b => b < 256) (utf8 c).
Proof.
  intros H. unfold utf8.
  assert (H64 : forall x, x mod 64 < 64) by (intros x; apply N.mod_upper_bound; lia).
  destruct (N.ltb_spec c 128); [repeat constructor; lia|].
  destruct (N.ltb_spec c 2048).
  { assert (c / 64 < 32) by (apply N.Div0.div_lt_upper_bound; lia).
    pose proof (H64 c). repeat constructor; lia. }
  destruct (N.ltb_spec c 65536); [|lia].
  assert (c / 4096 < 16) by (apply N.Div0.div_lt_upper_bound; lia).
  pose proof (H64 c). pose proof (H64 (c / 64)). repeat constructor; lia.
Qed.

Lemma percentUtf8_printable c :
  c < 65536 -> Forall (fun x => printable x = true) (percentUtf8 c).
Proof.
  intros H. unfold percentUtf8.
  pose proof (utf8_octets c H) as Hb.
  induction Hb as [|b l Hb _ IH]; [constructor|].
  change (flat_map percentOctet (b :: l))
    with (percentOctet b ++ flat_map percentOctet l).
  apply Forall_app. split; [|exact IH].
  apply percentOctet_printable, Hb.
Qed.

Lemma encodeChar_printable imagePath c enc :
  c < 65536 -> inPathClass c = false ->
  encodeChar imagePath c = Normal enc ->
  Forall (fun x => printable x = true) enc.
Proof.
  intros Hc Hcls. destruct (outside_class_unreserved c Hcls) as [Hcolon Hunres].
  unfold encodeChar. rewrite Hcolon. cbn [andb encodeURIComponent].
  rewrite Hunres. destruct (isUriMark c) eqn:Hmark.
  - intros [= <-]. constructor; [|constructor].
    apply class_printable. rewrite Hmark. apply orb_true_r.
  - destruct (isLowSurrogate c); [discriminate|].
    destruct (isHighSurrogate c); [discriminate|].
    intros [= <-]. rewrite app_nil_r. apply percentUtf8_printable, Hc.
Qed.

Lemma encodePath_from_printable imagePath s : forall r,
  Forall (fun c => c < 65536) s ->
  encodePath_from imagePath s = Normal r ->
  Forall (fun x => printable x = true) r.
Proof.
  induction s as [|c t IH]; intros r Hs; [intros [= <-]; constructor|].
  inversion Hs as [|? ? Hc Ht]; subst. cbn [encodePath_from].
  destruct (inPathClass c) eqn:Hcls.
  - destruct (encodePath_from imagePath t) as [r'|e]; [|discriminate].
    intros [= <-]. constructor; [|apply IH; auto].
    apply class_printable. rewrite Hcls. reflexivity.
  - destruct (encodeChar imagePath c) as [enc|e] eqn:Henc; [|discriminate].
    destruct (encodePath_from imagePath t) as [r'|e]; [|discriminate].
    intros [= <-]. apply Forall_app. split; [|apply IH; auto].
    apply (encodeChar_printable imagePath c enc Hc Hcls Henc).
Qed.

(** A surrogate code unit anywhere in the path makes the encoding
    replace throw. *)
Lemma encodeChar_throws imagePath c e :
  encodeChar imagePath c = Throw e -> e = URIError (js "URI malformed").
Proof.
  unfold encodeChar. destruct (isChar ":" c && hasDriveLetter imagePath);
    [discriminate|].
  cbn [encodeURIComponent].
  destruct (isUriUnreserved c); [discriminate|].
  destruct (isLowSurrogate c); [intros [= <-]; reflexivity|].
  destruct (isHighSurrogate c); [intros [= <-]; reflexivity|discriminate].
Qed.

Lemma encodeChar_surrogate imagePath c :
  isSurrogate c = true ->
  inPathClass c = false
  /\ encodeChar imagePath c = Throw (URIError (js "URI malformed")).
Proof.
  intros Hs.
  assert (Hrange : 55296 <= c <= 57343).
  { unfold isSurrogate in Hs. apply andb_true_iff in Hs.
    rewrite !N.leb_le in Hs. exact Hs. }
  assert (Hcls : inPathClass c = false).
  { unfold inPathClass, isLower, isUpper, isDigit, isChar, cu, backslash.
    simpl N_of_ascii.
    rewrite !orb_false_iff, !andb_false_iff, !N.leb_gt, !N.eqb_neq. lia. }
  split; [exact Hcls|].
  destruct (outside_class_unreserved c Hcls) as [Hcolon Hunres].
  assert (Hmark : isUriMark c = false).
  { unfold isUriMark, isChar, cu. simpl N_of_ascii.
    rewrite !orb_false_iff, !N.eqb_neq. lia. }
  unfold encodeChar. rewrite Hcolon. cbn [andb encodeURIComponent].
  rewrite Hunres, Hmark.
  destruct (isLowSurrogate c) eqn:Hlow; [reflexivity|].
  destruct (isHighSurrogate c) eqn:Hhigh; [reflexivity|].
  exfalso. unfold isLowSurrogate, isHighSurrogate in *.
  rewrite andb_false_iff, !N.leb_gt in Hlow, Hhigh. lia.
Qed.

Lemma encodePath_from_surrogate imagePath s :
  Exists (fun c => isSurrogate c = true) s ->
  encodePath_from imagePath s = Throw (URIError (js "URI malformed")).
Proof.
  induction 1 as [c t Hc|c t _ IH]; cbn [encodePath_from].
  - destruct (encodeChar_surrogate imagePath c Hc) as [-> ->]. reflexivity.
  - rewrite IH. destruct (inPathClass c); [reflexivity|].
    destruct (encodeChar imagePath c) as [enc|e] eqn:Henc; [reflexivity|].
    rewrite (encodeChar_throws imagePath c e Henc). reflexivity.
Qed.

End EncodingFacts.

(** X16.  A wiki image whose path, after trimming, holds a surrogate code
    unit (any character outside the Basic Multilingual Plane, such as an
    emoji in a file name) makes [convertObsidianImages] throw a URIError:
    the encoding works one code unit at a time.  The document is not
    converted at all, whatever else it holds after that image. *)
Theorem convertObsidianImages_surrogate_throws (pre content rest : jsstring) :
  Forall (fun c => isChar "!" c = false) pre ->
  content <> [] ->
  Forall (fun c => isChar "]" c = false) content ->
  Exists (fun c => Renderer.isSurrogate c = true)
    (Renderer.trim (Renderer.beforePipe content)) ->
  Renderer.convertObsidianImages
    (pre ++ js "![[" ++ content ++ js "]]" ++ rest)
  = Throw (URIError (js "URI malformed")).
Proof.
  intros Hpre Hne Hb Hs. unfold Renderer.convertObsidianImages.
  rewrite (convertObsidianImages_from_plain _ _ Hpre).
  pose proof (match_wikiImage_link content rest Hne Hb) as Hm.
  change (js "![[" ++ content ++ js "]]" ++ rest)
    with (33 :: ([91; 91] ++ content ++ [93; 93] ++ rest)) in *.
  cbn [Renderer.convertObsidianImages_from]. rewrite Hm.
  unfold Renderer.convertOne.
  rewrite (encodePath_from_surrogate _ _ Hs). reflexivity.
Qed.

Lemma convertObsidianImages_surrogate_throws_witness :
  Renderer.convertObsidianImages
    (js "Intro " ++ js "![[" ++ js "party 🎉.png|the party" ++ js "]]"
       ++ js " and ![[b.png]]")
  = Throw (URIError (js "URI malformed")).
Proof.
  apply (convertObsidianImages_surrogate_throws (js "Intro ")
           (js "party 🎉.png|the party") (js " and ![[b.png]]")).
  - apply (Forall_false_forallb (isChar "!")). vm_compute. reflexivity.
  - vm_compute. discriminate.
  - apply (Forall_false_forallb (isChar "]")). vm_compute. reflexivity.
  - vm_compute. do 6 apply Exists_cons_tl. apply Exists_cons_hd. reflexivity.
Defined.

(** X17.  Whenever the conversion of one wiki image returns, the path it
    writes between the parentheses consists of printable ASCII characters
    other than the space: white space and every character beyond ASCII
    have been percent-encoded.  Stated for code units, that is numbers
    below 65536. *)
Theorem convertOne_printable (content out : jsstring) :
  Forall (fun c => c < 65536) content ->
  Renderer.convertOne content = Normal out ->
  exists encodedPath,
    out = js "![](" ++ encodedPath ++ js ")"
    /\ Forall (fun c => printable c = true) encodedPath.
Proof.
  intros Hunits. unfold Renderer.convertOne.
  destruct (Renderer.encodePath_from _ _) as [enc|e] eqn:E; [|discriminate].
  intros [= <-]. exists enc. split; [reflexivity|].
  apply (encodePath_from_printable _ _ enc (Forall_path _ _ Hunits) E).
Qed.

Lemma convertOne_printable_witness :
  exists encodedPath,
    js "![](" ++ js "K:/%E5%9B%BE%201%20(a).png" ++ js ")"
      = js "![](" ++ encodedPath ++ js ")"
    /\ Forall (fun c => printable c = true) encodedPath.
Proof.
  apply (convertOne_printable (js " K:/图 1 (a).png | alt ")
           (js "![](" ++ js "K:/%E5%9B%BE%201%20(a).png" ++ js ")")).
  - apply (Forall_lt_forallb 65536). vm_compute. reflexivity.
  - vm_compute. reflexivity.
Defined.

(** X18.  On a document without surrogate code units
    [convertObsidianImages] returns, and its result is the document with
    every wiki image the scan finds, from left to right and without
    overlap, replaced by its resolution, and every other code unit kept
    in place. *)
Theorem convertObsidianImages_whole_document (markdown : jsstring) :
  Forall (fun c => Renderer.isSurrogate c = false) markdown ->
  exists out, Renderer.convertObsidianImages markdown = Normal out
              /\ Renderer.Converted markdown out.
Proof. apply convertObsidianImages_Converted. Qed.

Lemma convertObsidianImages_whole_document_witness :
  exists out,
    Renderer.convertObsidianImages
      (js "a ![[x y.png]] ![not] ![[z.png|alt]] ![[]] end") = Normal out
    /\ Renderer.Converted
         (js "a ![[x y.png]] ![not] ![[z.png|alt]] ![[]] end") out.
Proof.
  apply (convertObsidianImages_whole_document
           (js "a ![[x y.png]] ![not] ![[z.png|alt]] ![[]] end")).
  apply (Forall_false_forallb Renderer.isSurrogate). vm_compute. reflexivity.
Defined.

(* ================================================================== *)
(** ** renderer.ts: renderMarkdown *)
(* ================================================================== *)

Section RenderFacts.

Import Renderer Render.

Lemma match_fileImage_link path rest :
  path <> [] -> Forall (fun c => isChar ")" c = false) path ->
  match_fileImage (js "![](file:///" ++ path ++ 41 :: rest)
    = Some (js "file:///" ++ path).
Proof.
  intros Hne Hp. unfold match_fileImage.
  change (js "![](file:///")
    with [33; 91; 93; 40; 102; 105; 108; 101; 58; 47; 47; 47].
  cbn [app startsWith drop]. rewrite startsWith_nil. simpl andb. cbv iota.
  change (drop 0 (path ++ 41 :: rest)) with (path ++ 41 :: rest).
  rewrite (span_until (fun c => negb (isChar ")" c)) path 41 rest).
  - destruct path; [contradiction|reflexivity].
  - eapply Forall_impl; [exact Hp|]. intros c ->. reflexivity.
  - reflexivity.
Qed.

Lemma imgTags_from_skip pre rest :
  imgTags_from (length pre) (pre ++ rest) = imgTags_from 0 rest.
Proof.
  induction pre as [|c pre IH]; simpl; [destruct rest; reflexivity|exact IH].
Qed.

Lemma imgTags_from_plain pre s :
  Forall (fun c => isChar "!" c = false) pre ->
  imgTags_from 0 (pre ++ s) = pre ++ imgTags_from 0 s.
Proof.
  induction 1 as [|c pre Hc _ IH]; simpl app; [reflexivity|].
  cbn [imgTags_from].
  assert (Hm : match_fileImage (c :: pre ++ s) = None).
  { unfold match_fileImage.
    change (js "![](file:///")
      with [33; 91; 93; 40; 102; 105; 108; 101; 58; 47; 47; 47].
    cbn [startsWith].
    assert (Hc' : (c =? 33) = false) by exact Hc.
    destruct (pre ++ s); rewrite Hc'; reflexivity. }
  rewrite Hm, IH. reflexivity.
Qed.

Lemma imgTags_from_link path rest :
  path <> [] -> Forall (fun c => isChar ")" c = false) path ->
  imgTags_from 0 (js "![](file:///" ++ path ++ 41 :: rest)
    = imgTag (js "file:///" ++ path) ++ imgTags_from 0 rest.
Proof.
  intros Hne Hp.
  pose proof (match_fileImage_link path rest Hne Hp) as Hm.
  change (js "![](file:///" ++ path ++ 41 :: rest)
    with (33 :: ([91; 93; 40; 102; 105; 108; 101; 58; 47; 47; 47]
                   ++ path ++ 41 :: rest)) in *.
  cbn [imgTags_from]. rewrite Hm. f_equal.
  change (js "file:///") with [102; 105; 108; 101; 58; 47; 47; 47].
  replace ([91; 93; 40; 102; 105; 108; 101; 58; 47; 47; 47]
             ++ path ++ 41 :: rest)
    with (([91; 93; 40; 102; 105; 108; 101; 58; 47; 47; 47] ++ path ++ [41])
            ++ rest)
    by (rewrite <- !app_assoc; reflexivity).
  replace (Nat.add 4 (length ([102; 105; 108; 101; 58; 47; 47; 47] ++ path)))
    with (length ([91; 93; 40; 102; 105; 108; 101; 58; 47; 47; 47]
                    ++ path ++ [41]))
    by (rewrite !length_app; simpl; lia).
  apply imgTags_from_skip.
Qed.

End RenderFacts.

(** X19.  [renderMarkdown] converts the wiki images, renders, and then
    turns what the renderer left of an empty-text image with a
    [file:///] address into an image tag with that address and an empty
    alternative text; the text before it, free of exclamation marks, is
    kept, and the rest is processed in the same way. *)
Theorem renderMarkdown_file_image
    (marked : jsstring -> Completion jsstring)
    (markdown converted pre path rest : jsstring) :
  Renderer.convertObsidianImages markdown = Normal converted ->
  marked converted
    = Normal (pre ++ js "![](file:///" ++ path ++ 41 :: rest) ->
  Forall (fun c => isChar "!" c = false) pre ->
  path <> [] ->
  Forall (fun c => isChar ")" c = false) path ->
  Render.renderMarkdown marked markdown
  = Normal (pre ++ Render.imgTag (js "file:///" ++ path)
              ++ Render.imgTags_from 0 rest).
Proof.
  intros Hconv Hmarked Hpre Hne Hp. unfold Render.renderMarkdown.
  rewrite Hconv, Hmarked, (imgTags_from_plain _ _ Hpre).
  rewrite (imgTags_from_link path rest Hne Hp). reflexivity.
Qed.

Lemma renderMarkdown_file_image_witness :
  Render.renderMarkdown
    (fun s => Normal (js "<p>" ++ s ++ js "</p>"))
    (js "![](file:///K:/x.png) end ![[a b.png]]")
  = Normal (js "<p>" ++ Render.imgTag (js "file:///" ++ js "K:/x.png")
              ++ Render.imgTags_from 0 (js " end ![](a%20b.png)</p>")).
Proof.
  assert (E : Renderer.convertObsidianImages
                (js "![](file:///K:/x.png) end ![[a b.png]]")
              = Normal (js "![](file:///K:/x.png) end ![](a%20b.png)"))
    by (vm_compute; reflexivity).
  apply (renderMarkdown_file_image _ _ _ (js "<p>") (js "K:/x.png")
           (js " end ![](a%20b.png)</p>") E).
  - vm_compute. reflexivity.
  - apply (Forall_false_forallb (isChar "!")). vm_compute. reflexivity.
  - vm_compute. discriminate.
  - apply (Forall_false_forallb (isChar ")")). vm_compute. reflexivity.
Defined.

(* ================================================================== *)
(** ** wechat.ts: the files a publication reads *)
(* ================================================================== *)

(** X20.  With a cover supplied by the caller and accepted credentials,
    the files [publishToWechat] reads are exactly the local images of the
    document, in document order: no first image is read again and no
    default cover is looked at, whether or not the uploads and the draft
    succeed. *)
Theorem publishToWechat_reads_with_cover (W : World)
    (title html : jsstring) (cover : bytes) (cf : option jsstring)
    (o : PublishOptions) (author digest : option jsstring) (st : State)
    (token : WechatJson) :
  requestUrl_json W (length (net_log st))
    (token_request (appId o) (appSecret o)) = Normal token ->
  errcode_set token = false ->
  fs_log (snd (publishToWechat W title html (Some cover) cf o author digest st))
  = fs_log st ++ localImagePaths W (basePath o) html.
Proof.
  intros Hreply Hcode.
  rewrite publishToWechat_steps, getAccessToken_cases, Hreply, Hcode.
  cbv zeta. unfold uploadContentImages.
  set (st1 := log_request _ st). set (tok := toStr (access_token token)).
  destruct (loop_reads W tok (basePath o) (imgRegex_exec 0 html) html None st1)
    as (h' & st2 & -> & Hfs).
  fold (localImagePaths W (basePath o) html) in Hfs.
  change (fs_log st1) with (fs_log st) in Hfs.
  assert (Hcover : resolveCover W (Some cover) cf
                     (fold_left recordFirst
                        (flat_map (localImagePath W (basePath o))
                           (imgRegex_exec 0 html)) None) o st2
                   = (Normal (cover, cf), st2)) by reflexivity.
  rewrite Hcover.
  destruct (uploadImage W cover (coverUploadName cf) tok st2)
    as [[up|e] st3] eqn:E; apply uploadImage_frame in E as [_ E].
  - rewrite publishArticle_sends. simpl. rewrite E. exact Hfs.
  - simpl. rewrite E. exact Hfs.
Qed.

Lemma publishToWechat_reads_with_cover_witness :
  fs_log (snd (publishToWechat Demo.vault_world (js "Title")
                 Demo.three_images (Some (Demo.file_bytes Byte.x45))
                 (Some (js "e.png")) Demo.bundled_options None None
                 Demo.initial))
  = fs_log Demo.initial
      ++ localImagePaths Demo.vault_world (basePath Demo.bundled_options)
           Demo.three_images.
Proof.
  apply (publishToWechat_reads_with_cover Demo.vault_world (js "Title")
           Demo.three_images (Demo.file_bytes Byte.x45) (Some (js "e.png"))
           Demo.bundled_options None None Demo.initial
           {| access_token := Some (js "TOKEN"); media_id := None;
              url := None; errcode := None; errmsg := None |}).
  - reflexivity.
  - reflexivity.
Defined.

(* ================================================================== *)
(** ** renderer.ts: the line feeds around list items *)
(* ================================================================== *)

Section ListBreakFacts.

Import Render.

Lemma startsWith_split s : forall pat,
  startsWith s pat = true -> exists rest, s = pat ++ rest.
Proof.
  induction s as [|c s IH]; intros [|p pat] H; try discriminate H.
  - exists []. reflexivity.
  - exists (c :: s). reflexivity.
  - simpl in H. apply andb_true_iff in H as [Hc Hs].
    apply N.eqb_eq in Hc. subst p.
    destruct (IH pat Hs) as [rest ->]. exists rest. reflexivity.
Qed.

Lemma replaceLiteral_from_skip pat rep pre rest :
  replaceLiteral_from pat rep (length pre) (pre ++ rest)
    = replaceLiteral_from pat rep 0 rest.
Proof.
  induction pre as [|c pre IH]; simpl; [destruct rest; reflexivity|exact IH].
Qed.

(** Replacing a text by what is left of it once some of its line feeds
    are taken away only takes line feeds away. *)
Lemma replaceLiteral_from_removes pat rep :
  pat <> [] -> rep `sublist_of` pat ->
  filter (fun c => notLineFeed c = true) rep
    = filter (fun c => notLineFeed c = true) pat ->
  forall s,
    replaceLiteral_from pat rep 0 s `sublist_of` s
    /\ filter (fun c => notLineFeed c = true) (replaceLiteral_from pat rep 0 s)
       = filter (fun c => notLineFeed c = true) s.
Proof.
  intros Hpat Hsub Hfilter s.
  remember (length s) as n eqn:Hn.
  assert (Hle : (length s <= n)%nat) by lia. clear Hn.
  revert s Hle. induction n as [|n IH]; intros s Hle.
  - destruct s; [|simpl in Hle; lia]. split; reflexivity.
  - destruct s as [|c t]; [split; reflexivity|].
    cbn [replaceLiteral_from].
    destruct (startsWith (c :: t) pat) eqn:Hm.
    + destruct (startsWith_split _ _ Hm) as [rest E].
      destruct pat as [|p pat]; [contradiction|].
      injection E as <- ->.
      replace (length (c :: pat) - 1)%nat with (length pat)
        by (simpl; lia).
      rewrite replaceLiteral_from_skip.
      destruct (IH rest) as [IHsub IHfilter].
      { simpl in Hle. rewrite length_app in Hle. lia. }
      split.
      * change (c :: pat ++ rest) with ((c :: pat) ++ rest).
        apply sublist_app; assumption.
      * change (c :: pat ++ rest) with ((c :: pat) ++ rest).
        rewrite !filter_app, Hfilter, IHfilter. reflexivity.
    + destruct (IH t) as [IHsub IHfilter]; [simpl in Hle; lia|].
      split; [apply sublist_skip, IHsub|].
      rewrite !filter_cons, IHfilter. reflexivity.
Qed.

End ListBreakFacts.

(** X21.  The last step of [wrapWithWechatStyle] takes line feeds away
    and does nothing else: its result is the text it is given with some
    code units left out, and the code units other than line feeds are the
    same, in the same order, before and after. *)
Theorem removeListBreaks_only_line_feeds (result : jsstring) :
  Render.removeListBreaks result `sublist_of` result
  /\ filter (fun c => Render.notLineFeed c = true)
       (Render.removeListBreaks result)
     = filter (fun c => Render.notLineFeed c = true) result.
Proof.
  unfold Render.removeListBreaks.
  change (js "</li>" ++ [10]) with [60; 47; 108; 105; 62; 10].
  change (js "</li>") with [60; 47; 108; 105; 62].
  change (10 :: js "<li") with [10; 60; 108; 105].
  change (js "<li") with [60; 108; 105].
  destruct (replaceLiteral_from_removes [10; 60; 108; 105] [60; 108; 105]
              ltac:(discriminate) ltac:(apply sublist_cons; reflexivity)
              eq_refl result) as [S1 F1].
  destruct (replaceLiteral_from_removes [60; 47; 108; 105; 62; 10]
              [60; 47; 108; 105; 62]
              ltac:(discriminate)
              ltac:(do 5 apply sublist_skip; apply sublist_cons; constructor)
              eq_refl
              (Render.replaceLiteral_from [10; 60; 108; 105] [60; 108; 105] 0
                 result)) as [S2 F2].
  split; [etransitivity; eassumption|]. rewrite F2. exact F1.
Qed.

(** Of two line feeds before an opening tag, or after a closing one, one
    is left. *)
Example removeListBreaks_examples :
  Render.removeListBreaks
    (js "<ul>" ++ [10] ++ js "<li>a</li>" ++ [10] ++ js "<li>b</li>" ++ [10]
       ++ js "</ul>")
  = js "<ul><li>a</li><li>b</li></ul>"
  /\ Render.removeListBreaks
       (js "<ul>" ++ [10; 10] ++ js "<li>a</li>" ++ [10; 10] ++ js "</ul>")
     = js "<ul>" ++ [10] ++ js "<li>a</li>" ++ [10] ++ js "</ul>".
Proof. vm_compute. split; reflexivity. Qed.
